(** * Funnel builder: the funnel-graph consistency engine and the tree renderer

    A shallow embedding of the editing core of the funnel builder
    (the provider that owns the funnel configuration: path reindexing, route
    migration, mutation history, validation, import) and of the recursive
    template renderer, together with the properties its specification states.

    Conventions of the embedding.
    - A string is the sequence of the bytes of its UTF-8 encoding.
    - A JavaScript object used as an ordered dictionary ([Record<string, T>])
      is the list of its entries in [Object.keys] order; its keys are
      pairwise distinct.  [Object.keys] lists the keys that are array
      indices first, in numeric order, and the others in the order of their
      creation; [setKey] and [fromEntries] give insertion order, which is
      [Object.keys] order as long as no array index ([arrayIndex]) is
      involved.  Statements that depend on where a new key lands say so.
    - [lookupKey] is the own-property lookup.  Where the source reads
      [object[name]] the properties every object inherits ([inheritedNames])
      are found as well; the validator and the renderer model this
      ([hasProperty], [registeredNames]), and the statements about the
      route migrator and the structural edits, which cannot hold a function
      in a route or a page, exclude these names.
    - Numbers produced by [parseInt] are integers ([Z]); [NaN] is [None].
      Their decimal rendering is [pretty].  The source computes with
      doubles, which agree with the integers up to [MAX_SAFE_INTEGER];
      statements about arithmetic on paths carry that bound
      ([safeInteger]).
    - React state is threaded explicitly: one [Store] value holds the
      configuration, the history, the active page and the toast; every
      operation is a function from store to store, the refs that mirror the
      state being in step with it between two operations. *)

From Stdlib Require Import ZArith QArith.QArith_base Lia Ascii.
From stdpp Require Import base strings list gmap fin_maps pretty sorting.

Set Warnings "-register-all".
Local Open Scope string_scope.
Local Open Scope Z_scope.
Local Open Scope list_scope.

(** ** JavaScript primitives *)

(** The double quote, for messages that quote a name. *)
Definition dq : string := String "034"%char EmptyString.

(** Truthiness of a string: every string but the empty one. *)
Definition nonEmpty (s : string) : bool :=
  match s with
  | EmptyString => false
  | String _ _ => true
  end.

(** Truthiness of an optional string property ([undefined] is falsy). *)
Definition truthy (o : option string) : bool :=
  match o with
  | Some s => nonEmpty s
  | None => false
  end.

(** [s.startsWith(p)]. *)
Fixpoint startsWith (p s : string) : bool :=
  match p, s with
  | EmptyString, _ => true
  | String a p', String b s' => if decide (a = b) then startsWith p' s' else false
  | String _ _, EmptyString => false
  end.

(** The white space and line terminators of one byte: U+0009 to U+000D and
    the space. *)
Definition isWhiteSpace (c : ascii) : bool :=
  let n := nat_of_ascii c in
  ((9 <=? n)%nat && (n <=? 13)%nat) || (n =? 32)%nat.

(** The first byte of the white space of more than one byte. *)
Definition startsWideSpace (c : ascii) : bool :=
  let n := nat_of_ascii c in
  (n =? 194)%nat || (n =? 225)%nat || (n =? 226)%nat || (n =? 227)%nat || (n =? 239)%nat.

(** U+00A0, the no-break space. *)
Definition isWideSpace2 (c1 c2 : ascii) : bool :=
  (nat_of_ascii c1 =? 194)%nat && (nat_of_ascii c2 =? 160)%nat.

(** U+1680, U+2000 to U+200A, U+2028, U+2029, U+202F, U+205F, U+3000 and
    U+FEFF: the other space separators, the line and paragraph separators
    and the byte order mark. *)
Definition isWideSpace3 (c1 c2 c3 : ascii) : bool :=
  let n1 := nat_of_ascii c1 in
  let n2 := nat_of_ascii c2 in
  let n3 := nat_of_ascii c3 in
  ((n1 =? 225)%nat && (n2 =? 154)%nat && (n3 =? 128)%nat) ||
  ((n1 =? 226)%nat && (n2 =? 128)%nat &&
   (((128 <=? n3)%nat && (n3 <=? 138)%nat) ||
    (n3 =? 168)%nat || (n3 =? 169)%nat || (n3 =? 175)%nat)) ||
  ((n1 =? 226)%nat && (n2 =? 129)%nat && (n3 =? 159)%nat) ||
  ((n1 =? 227)%nat && (n2 =? 128)%nat && (n3 =? 128)%nat) ||
  ((n1 =? 239)%nat && (n2 =? 187)%nat && (n3 =? 191)%nat).

(** The string without the white space and line terminators it starts
    with, as [parseInt] strips them. *)
Fixpoint trimStart (s : string) : string :=
  match s with
  | String c s1 =>
      if isWhiteSpace c then trimStart s1
      else if negb (startsWideSpace c) then s
      else
        match s1 with
        | String c2 s2 =>
            if isWideSpace2 c c2 then trimStart s2
            else
              match s2 with
              | String c3 s3 => if isWideSpace3 c c2 c3 then trimStart s3 else s
              | EmptyString => s
              end
        | EmptyString => s
        end
  | EmptyString => EmptyString
  end.

(** The value of a character as a digit in the given radix. *)
Definition digitValue (radix : Z) (c : ascii) : option Z :=
  let n := Z.of_nat (nat_of_ascii c) in
  let v :=
    if (48 <=? n) && (n <=? 57) then Some (n - 48)
    else if (97 <=? n) && (n <=? 122) then Some (n - 87)
    else if (65 <=? n) && (n <=? 90) then Some (n - 55)
    else None in
  match v with
  | Some d => if d <? radix then Some d else None
  | None => None
  end.

(** The longest prefix of digits, read from the left. *)
Fixpoint parseDigits (radix acc : Z) (s : string) : Z :=
  match s with
  | String c s' =>
      match digitValue radix c with
      | Some d => parseDigits radix (acc * radix + d) s'
      | None => acc
      end
  | EmptyString => acc
  end.

Definition parseMagnitude (radix : Z) (s : string) : option Z :=
  match s with
  | String c _ =>
      match digitValue radix c with
      | Some _ => Some (parseDigits radix 0 s)
      | None => None
      end
  | EmptyString => None
  end.

(** [parseInt(s, radix)] with [radix] either absent ([None]: decimal, or
    hexadecimal after a [0x] prefix) or 10. *)
Definition parseIntRadix (radix : option Z) (s : string) : option Z :=
  let s1 := trimStart s in
  let '(sign, s2) :=
    match s1 with
    | String "-"%char r => (-1, r)
    | String "+"%char r => (1, r)
    | _ => (1, s1)
    end in
  let '(r, s3) :=
    match radix, s2 with
    | None, String "0"%char (String "x"%char r) => (16, r)
    | None, String "0"%char (String "X"%char r) => (16, r)
    | None, _ => (10, s2)
    | Some k, _ => (k, s2)
    end in
  Z.mul sign <$> parseMagnitude r s3.

Definition parseInt (s : string) : option Z := parseIntRadix None s.
Definition parseInt10 (s : string) : option Z := parseIntRadix (Some 10) s.

(** [n.toString()] for the result of integer arithmetic that may be [NaN]. *)
Definition toString (n : option Z) : string :=
  match n with
  | Some z => pretty z
  | None => "NaN"
  end.

(** The characters ["0"] .. ["9"]. *)
Definition isDecimalDigit (c : ascii) : bool :=
  let n := nat_of_ascii c in (48 <=? n)%nat && (n <=? 57)%nat.

Fixpoint allDecimal (s : string) : bool :=
  match s with
  | EmptyString => true
  | String c s' => isDecimalDigit c && allDecimal s'
  end.

(** [(index + 1).toString()] for an array index. *)
Definition indexToPath (index : nat) : string := pretty (S index).

(** [Number.MAX_SAFE_INTEGER], 2^53 - 1: up to it, in absolute value, the
    doubles of the source are the integers, and so is the successor of
    one. *)
Definition MAX_SAFE_INTEGER : Z := 9007199254740991.

(** What [parseInt] reads from the string is [NaN] or a safe integer. *)
Definition safeInteger (s : string) : Prop :=
  ∀ n, parseInt s = Some n -> - MAX_SAFE_INTEGER <= n <= MAX_SAFE_INTEGER.

(** The properties of [Object.prototype]: what [object[name]] finds on any
    object that has no property of its own under the name.  Each of them is
    truthy. *)
Definition inheritedNames : list string :=
  ["constructor"; "__defineGetter__"; "__defineSetter__"; "hasOwnProperty";
   "__lookupGetter__"; "__lookupSetter__"; "isPrototypeOf";
   "propertyIsEnumerable"; "toString"; "valueOf"; "__proto__";
   "toLocaleString"].

Definition inheritedName (k : string) : bool := bool_decide (k ∈ inheritedNames).

(** An array index: the decimal, without leading zero, of an integer below
    2^32 - 1.  [Object.keys] lists such keys before all others. *)
Definition arrayIndex (k : string) : bool :=
  nonEmpty k && allDecimal k &&
  match k with
  | String "0"%char (String _ _) => false
  | _ => true
  end &&
  (parseDigits 10 0 k <? 4294967295).

(** A key that [Object.keys] lists where it was created and that an
    assignment [object[key] = value] creates: no array index and not
    [__proto__]. *)
Definition plainKey (k : string) : Prop :=
  arrayIndex k = false ∧ k ≠ "__proto__".

(** ** JSON values *)

(** What [JSON.parse] yields.  An array carries, besides its items, the named
    properties later assigned to it. *)
Inductive json : Type :=
  | JNull
  | JBool (b : bool)
  | JNum (q : Q)
  | JStr (s : string)
  | JArr (items : list json) (props : list (string * json))
  | JObj (fields : list (string * json)).

(** ** Ordered dictionaries *)

Section Dict.
Context {A : Type}.

(** [d[k]]. *)
Fixpoint lookupKey (k : string) (d : list (string * A)) : option A :=
  match d with
  | [] => None
  | (k', v) :: d' => if decide (k' = k) then Some v else lookupKey k d'
  end.

(** [!!d[k]] for a dictionary whose values are objects: the name is a
    property of the dictionary, its own or an inherited one. *)
Definition hasProperty (k : string) (d : list (string * A)) : bool :=
  match lookupKey k d with
  | Some _ => true
  | None => inheritedName k
  end.

(** [d[k] = v]: in place when the key exists, at the end otherwise (where
    [Object.keys] lists a new key that is no array index). *)
Fixpoint setKey (k : string) (v : A) (d : list (string * A)) : list (string * A) :=
  match d with
  | [] => [(k, v)]
  | (k', v') :: d' =>
      if decide (k' = k) then (k, v) :: d' else (k', v') :: setKey k v d'
  end.

(** [Object.fromEntries(entries)]. *)
Definition fromEntries (entries : list (string * A)) : list (string * A) :=
  fold_left (fun acc kv => setKey kv.1 kv.2 acc) entries [].

(** [Object.keys(d)]. *)
Definition keys (d : list (string * A)) : list string := d.*1.

(** [Object.values(d)]. *)
Definition values (d : list (string * A)) : list A := d.*2.

(** [Object.entries(d).filter(([key]) => key !== k)]. *)
Definition withoutKey (k : string) (d : list (string * A)) : list (string * A) :=
  filter (fun kv => kv.1 ≠ k) d.
End Dict.

(** ** The funnel graph *)

(** A page.  [meta] and [tracking_events] are carried along and never read
    by the core.  A missing [template_data] is the empty dictionary: every
    reader treats the two alike. *)
Record PageConfig : Type := mkPage {
  name : string;
  path : string;
  template : string;
  template_data : list (string * json);
  meta : option json;
  tracking_events : option json;
  header : option bool;
  footer : option bool
}.

(** [{ ...page, path: p }]. *)
Definition withPath (page : PageConfig) (p : string) : PageConfig :=
  {| name := name page; path := p; template := template page;
     template_data := template_data page; meta := meta page;
     tracking_events := tracking_events page;
     header := header page; footer := footer page |}.

(** [{ ...page, name: n }]. *)
Definition withName (page : PageConfig) (n : string) : PageConfig :=
  {| name := n; path := path page; template := template page;
     template_data := template_data page; meta := meta page;
     tracking_events := tracking_events page;
     header := header page; footer := footer page |}.

(** One branch of a conditional route; [cond_other] holds [operator],
    [value] and whatever else the entry carries. *)
Record Condition : Type := mkCondition {
  field : option string;
  target : option string;
  cond_other : list (string * json)
}.

Definition withTarget (cond : Condition) (t : string) : Condition :=
  {| field := field cond; target := Some t; cond_other := cond_other cond |}.

(** [route]: [conditions] is [None] when the property is not an array. *)
Record Route : Type := mkRoute {
  to : option string;
  conditions : option (list Condition)
}.

(** A routing entry; [event_other] holds the answer key, the broadcasts and
    the other properties the migrator copies untouched. *)
Record EventLogic : Type := mkEvent {
  route : option Route;
  event_other : list (string * json)
}.

(** The generic node of a template. *)
Inductive NodeChildren (N : Type) : Type :=
  | ChildNodes (nodes : list N)
  | ChildRef (key : string).
Arguments ChildNodes {N} nodes.
Arguments ChildRef {N} key.

Inductive ComponentNode : Type :=
  | Node (type component : option string)
         (props : list (string * json))
         (children : option (NodeChildren ComponentNode)).

Record ThemeConfig : Type := mkTheme {
  colors : list (string * string);
  fonts : list (string * string);
  spacing : list (string * string);
  border_radius : list (string * string);
  width : list (string * string);
  border : list (string * string)
}.

Record LayoutSlot : Type := mkSlot {
  slot_template : string;
  slot_template_data : list (string * json)
}.

Record LayoutConfig : Type := mkLayout {
  layout_header : LayoutSlot;
  layout_footer : LayoutSlot
}.

Record FunnelConfig : Type := mkConfig {
  config_id : Z;
  funnel_name : string;
  funnel_id : option Z;
  brand : string;
  version : Z;
  templates : list (string * ComponentNode);
  layout : LayoutConfig;
  pages : list (string * PageConfig);
  theme : ThemeConfig;
  event_routing : list (string * EventLogic);
  broadcast_targets : option json;
  split_test : option json
}.

(** [{ ...prev, pages: ps, event_routing: er }]. *)
Definition withPagesAndRouting (prev : FunnelConfig)
    (ps : list (string * PageConfig)) (er : list (string * EventLogic)) : FunnelConfig :=
  {| config_id := config_id prev; funnel_name := funnel_name prev;
     funnel_id := funnel_id prev; brand := brand prev; version := version prev;
     templates := templates prev; layout := layout prev; pages := ps;
     theme := theme prev; event_routing := er;
     broadcast_targets := broadcast_targets prev; split_test := split_test prev |}.

(** ** Path reindexer *)

Definition reindexPages (pages : list (string * PageConfig)) : list (string * PageConfig) :=
  imap (fun index kv => (kv.1, withPath kv.2 (indexToPath index))) pages.

(** ** Route migrator *)

(** The inner loop of [buildEventOwnerMap]: the values of one page. *)
Definition ownValues (eventNames : gset string) (pageKey : string)
    (vals : list json) (ownerMap : gmap string string) : gmap string string :=
  fold_left (fun ownerMap val =>
    match val with
    | JStr s => if decide (s ∈ eventNames) then <[s := pageKey]> ownerMap else ownerMap
    | _ => ownerMap
    end) vals ownerMap.

(** Event name -> key of the page that uses the name as a value of its
    [template_data]; a later page overwrites an earlier one. *)
Definition buildEventOwnerMap (pages : list (string * PageConfig))
    (eventRouting : list (string * EventLogic)) : gmap string string :=
  let eventNames : gset string := list_to_set (keys eventRouting) in
  fold_left (fun ownerMap kv =>
    ownValues eventNames kv.1 (values (template_data kv.2)) ownerMap) pages ∅.

(** One step of the first loop of [reindexEventRouting]. *)
Definition recordPath (newPages : list (string * PageConfig))
    (pathMap : gmap string string) (kv : string * PageConfig) : gmap string string :=
  match lookupKey kv.1 newPages with
  | Some newPage =>
      if decide (path kv.2 ≠ path newPage)
      then <[path kv.2 := path newPage]> pathMap
      else pathMap
  | None => pathMap
  end.

(** Old path -> new path, for every page whose key is in both collections
    and whose path changed (the first loop of [reindexEventRouting]). *)
Definition buildPathMap (oldPages newPages : list (string * PageConfig)) : gmap string string :=
  fold_left (recordPath newPages) oldPages ∅.

(** [pathMap[p]] when it is truthy, for a [p] that is none of the
    [inheritedNames]; for those the source finds a function. *)
Definition mapped (pathMap : gmap string string) (p : string) : option string :=
  match pathMap !! p with
  | Some q => if nonEmpty q then Some q else None
  | None => None
  end.

(** [ownerPageKey ? pages[ownerPageKey]?.path : null]. *)
Definition ownerPath (ownerPageKey : option string)
    (pages : list (string * PageConfig)) : option string :=
  match ownerPageKey with
  | Some k => if nonEmpty k then path <$> lookupKey k pages else None
  | None => None
  end.

(** [a === b] on numbers: [NaN] equals nothing. *)
Definition numEq (a b : option Z) : bool :=
  match a, b with
  | Some x, Some y => x =? y
  | _, _ => false
  end.

(** [ownerOldPath != null && parseInt(oldRouteTo) === parseInt(ownerOldPath) + 1]. *)
Definition wasSequential (ownerOldPath : option string) (oldRouteTo : string) : bool :=
  match ownerOldPath with
  | Some p => numEq (parseInt oldRouteTo) ((fun n => n + 1) <$> parseInt p)
  | None => false
  end.

(** The loop over [event.route.conditions]. *)
Definition migrateConditions (pathMap : gmap string string)
    (conds : list Condition) : list Condition :=
  map (fun cond =>
    match target cond with
    | Some t =>
        if nonEmpty t
        then match mapped pathMap t with
             | Some t' => withTarget cond t'
             | None => cond
             end
        else cond
    | None => cond
    end) conds.

Inductive RouteKind : Type := Sequential | Custom | Untouched.

(** The body of the loop over the routing entries: the migrated entry, and
    which counter it incremented. *)
Definition migrateEvent (oldPages newPages : list (string * PageConfig))
    (pathMap eventOwnerMap : gmap string string)
    (eventName : string) (event : EventLogic) : EventLogic * RouteKind :=
  match route event with
  | None => (event, Untouched)
  | Some r =>
      match to r with
      | None => (event, Untouched)
      | Some oldRouteTo =>
          if negb (nonEmpty oldRouteTo) then (event, Untouched)
          else
            let ownerPageKey := eventOwnerMap !! eventName in
            let ownerOldPath := ownerPath ownerPageKey oldPages in
            let ownerNewPath := ownerPath ownerPageKey newPages in
            let '(newTo, kind) :=
              match wasSequential ownerOldPath oldRouteTo, ownerNewPath with
              | true, Some q =>
                  (toString ((fun n => n + 1) <$> parseInt q), Sequential)
              | _, _ =>
                  match mapped pathMap oldRouteTo with
                  | Some q => (q, Custom)
                  | None => (oldRouteTo, Untouched)
                  end
              end in
            ({| route := Some {| to := Some newTo;
                                 conditions := migrateConditions pathMap <$> conditions r |};
                event_other := event_other event |}, kind)
      end
  end.

Record Migration : Type := mkMigration {
  routing : list (string * EventLogic);
  sequentialCount : nat;
  customCount : nat
}.

(** The table the loop works on is a deep copy of [eventRouting], equal to
    it value for value; the loop rewrites it entry by entry, in order. *)
Definition reindexEventRouting (oldPages newPages : list (string * PageConfig))
    (eventRouting : list (string * EventLogic)) : Migration :=
  let pathMap := buildPathMap oldPages newPages in
  if decide (size pathMap = 0%nat ∧ length eventRouting = 0%nat)
  then {| routing := eventRouting; sequentialCount := 0; customCount := 0 |}
  else
    let eventOwnerMap := buildEventOwnerMap oldPages eventRouting in
    fold_left (fun acc kv =>
      let '(event, kind) :=
        migrateEvent oldPages newPages pathMap eventOwnerMap kv.1 kv.2 in
      {| routing := routing acc ++ [(kv.1, event)];
         sequentialCount :=
           match kind with Sequential => S (sequentialCount acc) | _ => sequentialCount acc end;
         customCount :=
           match kind with Custom => S (customCount acc) | _ => customCount acc end |})
      eventRouting
      {| routing := []; sequentialCount := 0; customCount := 0 |}.



(** ** The store: configuration, history, active page, toast *)

Inductive ToastType : Type := ToastSuccess | ToastError | ToastWarning | ToastInfo.

Record Notification : Type := mkNotification {
  message : string;
  toastType : ToastType
}.

Record History (G : Type) : Type := mkHistory {
  past : list G;
  future : list G
}.
Arguments mkHistory {G} past future.
Arguments past {G} h.
Arguments future {G} h.

Record Store (G : Type) : Type := mkStore {
  config : G;
  history : History G;
  activePageId : string;
  notification : option Notification
}.
Arguments mkStore {G} config history activePageId notification.
Arguments config {G} s.
Arguments history {G} s.
Arguments activePageId {G} s.
Arguments notification {G} s.

Definition MAX_HISTORY : nat := 50.

(** [l.slice(-n)]: the last [n] elements. *)
Definition sliceLast {A} (n : nat) (l : list A) : list A :=
  drop (length l - n)%nat l.

(** [l.slice(0, -1)]: all but the last element. *)
Definition dropLast {A} (l : list A) : list A :=
  take (length l - 1)%nat l.

Section Mutations.
Context {G : Type}.

(** The toast is set; the timer that clears it four seconds later is not
    part of the model. *)
Definition notify (msg : string) (type : ToastType) (s : Store G) : Store G :=
  mkStore (config s) (history s) (activePageId s) (Some (mkNotification msg type)).

Definition clearNotification (s : Store G) : Store G :=
  mkStore (config s) (history s) (activePageId s) None.

Definition setActivePageId (pageId : string) (s : Store G) : Store G :=
  mkStore (config s) (history s) pageId (notification s).

(** Every mutation goes through here: the previous configuration is
    pushed on [past], which keeps its last [MAX_HISTORY] entries, and
    [future] is emptied. *)
Definition setConfig (newConfig : G -> G) (s : Store G) : Store G :=
  let prevConfig := config s in
  let nextConfig := newConfig prevConfig in
  mkStore nextConfig
    (mkHistory (sliceLast MAX_HISTORY (past (history s) ++ [prevConfig])) [])
    (activePageId s) (notification s).

Definition undo (s : Store G) : Store G :=
  let h := history s in
  let currentConfig := config s in
  match last (past h) with
  | None => s
  | Some previous =>
      mkStore previous
        (mkHistory (dropLast (past h)) (currentConfig :: future h))
        (activePageId s) (notification s)
  end.

Definition redo (s : Store G) : Store G :=
  let h := history s in
  let currentConfig := config s in
  match future h with
  | [] => s
  | next :: newFuture =>
      mkStore next
        (mkHistory (past h ++ [currentConfig]) newFuture)
        (activePageId s) (notification s)
  end.

(** A run of top-level mutations, each one an updater handed to
    [setConfig]. *)
Definition mutate (updaters : list (G -> G)) (s : Store G) : Store G :=
  fold_left (fun s f => setConfig f s) updaters s.

(** The configurations that [mutate] leaves behind, oldest first, and the
    one it ends with. *)
Fixpoint superseded (c : G) (updaters : list (G -> G)) : list G :=
  match updaters with
  | [] => []
  | f :: fs => c :: superseded (f c) fs
  end.

Definition latest (c : G) (updaters : list (G -> G)) : G :=
  fold_left (fun c f => f c) updaters c.
End Mutations.

(** ** Structural edits *)

(** The configuration every structural edit commits: the reindexed pages
    and the routing migrated from the pages before the edit. *)
Definition commitPages (reindexed : list (string * PageConfig))
    (prev : FunnelConfig) : FunnelConfig :=
  withPagesAndRouting prev reindexed
    (routing (reindexEventRouting (pages prev) reindexed (event_routing prev))).

Definition addPage (pageId : string) (newConfig : PageConfig)
    (s : Store FunnelConfig) : Store FunnelConfig :=
  setActivePageId pageId
    (setConfig (fun prev =>
       let updatedPages := setKey pageId newConfig (pages prev) in
       commitPages (reindexPages updatedPages) prev) s).

(** [entries.findIndex(([key]) => key === k)]; [None] is -1. *)
Fixpoint findIndex {A} (k : string) (entries : list (string * A)) : option nat :=
  match entries with
  | [] => None
  | (k', _) :: rest => if decide (k' = k) then Some 0%nat else S <$> findIndex k rest
  end.

(** [now] is the value of [Date.now()]. *)
Definition duplicatePage (pageId : string) (now : Z)
    (s : Store FunnelConfig) : Store FunnelConfig :=
  match lookupKey pageId (pages (config s)) with
  | None => s
  | Some pageToClone =>
      let newId := pageId +:+ "-copy-" +:+ pretty now in
      let newPage := withName pageToClone (name pageToClone +:+ " (Copy)") in
      let pageEntries := pages (config s) in
      let next := match findIndex pageId pageEntries with
                  | Some index => S index
                  | None => 0%nat
                  end in
      let newEntries :=
        take next pageEntries ++ [(newId, newPage)] ++ drop next pageEntries in
      let newPagesRaw := fromEntries newEntries in
      let reindexed := reindexPages newPagesRaw in
      setActivePageId newId (setConfig (commitPages reindexed) s)
  end.

Definition plural (n : nat) : string := if (1 <? n)%nat then "s" else "".

(** The toast of [reorderPages]. *)
Definition routingSummary (seqCount custCount : nat) : string :=
  let parts :=
    (if (0 <? seqCount)%nat
     then [pretty seqCount +:+ " route" +:+ plural seqCount +:+ " follow new order"]
     else []) ++
    (if (0 <? custCount)%nat
     then [pretty custCount +:+ " custom route" +:+ plural custCount +:+ " preserved"]
     else []) in
  "Routing updated: " +:+
  match parts with
  | [a] => a
  | [a; b] => a +:+ ", " +:+ b
  | _ => ""
  end.

(** The names that are no page are skipped, as the source does for every
    name but the [inheritedNames].  The toast is the one of a run in which
    React has called the updater by the time the counts are read; when it
    has not, the counts are still 0 and there is no toast. *)
Definition reorderPages (newOrder : list string)
    (s : Store FunnelConfig) : Store FunnelConfig :=
  let prev := config s in
  let newPagesRaw :=
    fold_left (fun acc key =>
      match lookupKey key (pages prev) with
      | Some page => setKey key page acc
      | None => acc
      end) newOrder [] in
  let reindexed := reindexPages newPagesRaw in
  let m := reindexEventRouting (pages prev) reindexed (event_routing prev) in
  let s' := setConfig (fun prev => withPagesAndRouting prev reindexed (routing m)) s in
  if (0 <? sequentialCount m)%nat || (0 <? customCount m)%nat
  then notify (routingSummary (sequentialCount m) (customCount m)) ToastInfo s'
  else s'.





(** The paths are ["1"], ["2"], ... in collection order. *)
Definition pathsSequential (ps : list (string * PageConfig)) : Prop :=
  path <$> values ps = indexToPath <$> seq 0 (length ps).

(** ** Validator *)

Inductive Severity : Type := SevError | SevWarning.

(** [ValidationError]: [{ type, field, message, pageId? }]. *)
Record ValidationError : Type := mkIssue {
  issue_type : Severity;
  issue_field : string;
  issue_message : string;
  issue_pageId : option string
}.

#[global] Instance Severity_eq_dec : EqDecision Severity.
Proof. solve_decision. Defined.

#[global] Instance ValidationError_eq_dec : EqDecision ValidationError.
Proof. solve_decision. Defined.

(** How many times an issue occurs in a report. *)
Definition occurrences (issue : ValidationError) (report : list ValidationError) : nat :=
  length (filter (fun i => i = issue) report).

(** Truthiness of a JSON value. *)
Definition jsTruthy (v : json) : bool :=
  match v with
  | JNull => false
  | JBool b => b
  | JNum q => negb (Qnum q =? 0)
  | JStr s => nonEmpty s
  | JArr _ _ => true
  | JObj _ => true
  end.

(** [!d[k]] for a dictionary of JSON values and for one of strings. *)
Definition lacks (k : string) (d : list (string * json)) : bool :=
  match lookupKey k d with
  | Some v => negb (jsTruthy v)
  | None => true
  end.

Definition lacksString (k : string) (d : list (string * string)) : bool :=
  negb (truthy (lookupKey k d)).

(** [l.join(',')] on numbers. *)
Definition joinNumbers (l : list Z) : string :=
  String.concat "," (pretty <$> l).

(** Check 1, first part: one issue per page without a usable path. *)
Definition checkPath (kv : string * PageConfig) : list ValidationError :=
  if negb (nonEmpty (path kv.2))
  then [mkIssue SevError "path" "Missing path" (Some kv.1)]
  else match parseInt10 (path kv.2) with
       | None => [mkIssue SevError "path"
                    ("Non-numeric path: " +:+ dq +:+ path kv.2 +:+ dq) (Some kv.1)]
       | Some _ => []
       end.

(** The numbers pushed on [paths]. *)
Definition numericPaths (ps : list (string * PageConfig)) : list Z :=
  omap (fun kv => if nonEmpty (path kv.2) then parseInt10 (path kv.2) else None) ps.

(** Check 1, second part: the sorted paths are 1 .. n. *)
Definition checkSequence (ps : list (string * PageConfig)) : list ValidationError :=
  let paths := numericPaths ps in
  let sortedPaths := merge_sort Z.le paths in
  let expected := (fun i : nat => Z.of_nat (S i)) <$> seq 0 (length paths) in
  if decide (sortedPaths = expected) then []
  else [mkIssue SevError "paths"
          ("Path sequence broken: [" +:+ joinNumbers sortedPaths +:+
           "] vs expected [" +:+ joinNumbers expected +:+ "]") None].

(** Check 2: the template and the name of each page. *)
Definition checkTemplate (templates : list (string * ComponentNode))
    (kv : string * PageConfig) : list ValidationError :=
  (if negb (nonEmpty (template kv.2))
   then [mkIssue SevError "template" "Missing template" (Some kv.1)]
   else if hasProperty (template kv.2) templates then []
   else [mkIssue SevError "template"
           ("Template " +:+ dq +:+ template kv.2 +:+ dq +:+
            " not found in templates") (Some kv.1)]) ++
  (if negb (nonEmpty (name kv.2))
   then [mkIssue SevWarning "name" "Missing page name" (Some kv.1)]
   else []).

(** Check 3, the default route of one entry. *)
Definition danglingRoute (eventName target : string) : ValidationError :=
  mkIssue SevError "event_routing"
    ("Event " +:+ dq +:+ eventName +:+ dq +:+ " routes to non-existent path: " +:+
     dq +:+ target +:+ dq) None.

Definition checkRouteTo (validPaths : gset string) (eventName : string)
    (event : EventLogic) : list ValidationError :=
  match route event with
  | Some r =>
      match to r with
      | Some target =>
          if nonEmpty target && negb (bool_decide (target ∈ validPaths))
          then [danglingRoute eventName target]
          else []
      | None => []
      end
  | None => []
  end.

(** Check 3, the condition at index [idx] of one entry. *)
Definition checkCondition (validPaths : gset string) (eventName : string)
    (idx : nat) (cond : Condition) : list ValidationError :=
  (match target cond with
   | Some t =>
       if nonEmpty t && negb (bool_decide (t ∈ validPaths))
       then [mkIssue SevError "event_routing"
               ("Event " +:+ dq +:+ eventName +:+ dq +:+ " condition #" +:+
                pretty (S idx) +:+ " routes to non-existent path: " +:+
                dq +:+ t +:+ dq) None]
       else []
   | None => []
   end) ++
  (if negb (truthy (field cond))
   then [mkIssue SevWarning "event_routing"
           ("Event " +:+ dq +:+ eventName +:+ dq +:+ " condition #" +:+
            pretty (S idx) +:+ " has no field specified") None]
   else []).

Definition checkConditions (validPaths : gset string) (eventName : string)
    (event : EventLogic) : list ValidationError :=
  match route event with
  | Some r =>
      match conditions r with
      | Some conds => concat (imap (checkCondition validPaths eventName) conds)
      | None => []
      end
  | None => []
  end.

Definition checkEvent (validPaths : gset string)
    (kv : string * EventLogic) : list ValidationError :=
  checkRouteTo validPaths kv.1 kv.2 ++ checkConditions validPaths kv.1 kv.2.

(** Check 4: the [_on_] values of a page name routing entries. *)
Definition checkEventRefs (eventRouting : list (string * EventLogic))
    (kv : string * PageConfig) : list ValidationError :=
  flat_map (fun entry =>
    match entry.2 with
    | JStr value =>
        if startsWith "_on_" entry.1 && nonEmpty value
        then if hasProperty value eventRouting then []
             else [mkIssue SevWarning entry.1
                     ("References event " +:+ dq +:+ value +:+ dq +:+
                      " not found in event_routing") (Some kv.1)]
        else []
    | _ => []
    end) (template_data kv.2).

(** Check 5: a page has a title or HTML content. *)
Definition checkContent (kv : string * PageConfig) : list ValidationError :=
  let td := template_data kv.2 in
  if lacks "_title_text" td && lacks "_html" td && lacks "_html_title" td
  then [mkIssue SevWarning "_title_text" "No title or HTML content" (Some kv.1)]
  else [].

(** Check 6: theme tokens. *)
Definition checkTheme (t : ThemeConfig) : list ValidationError :=
  (if lacksString "primary" (colors t)
   then [mkIssue SevWarning "theme.colors.primary" "Missing primary color" None]
   else []) ++
  (if lacksString "background" (colors t)
   then [mkIssue SevWarning "theme.colors.background" "Missing background color" None]
   else []) ++
  (if decide (length (keys (fonts t)) = 0%nat)
   then [mkIssue SevWarning "theme.fonts" "No fonts defined" None]
   else []).

(** Check 7: a stale preview page. *)
Definition checkPreview (ps : list (string * PageConfig)) : list ValidationError :=
  match lookupKey "__template_preview__" ps with
  | Some _ => [mkIssue SevWarning "pages"
                 "Stale template preview page found - will be removed on export" None]
  | None => []
  end.

(** [new Set(Object.values(pages).map(p => p.path))]. *)
Definition validPathsOf (ps : list (string * PageConfig)) : gset string :=
  list_to_set (path <$> values ps).

(** The issues in the order the checks push them. *)
Definition validateConfig (config : FunnelConfig) : list ValidationError :=
  let ps := pages config in
  let eventRouting := event_routing config in
  let validPaths := validPathsOf ps in
  flat_map checkPath ps ++ checkSequence ps ++
  flat_map (checkTemplate (templates config)) ps ++
  flat_map (checkEvent validPaths) eventRouting ++
  flat_map (checkEventRefs eventRouting) ps ++
  flat_map checkContent ps ++
  checkTheme (theme config) ++
  checkPreview ps.

(** A name that can stand between quotes in a message. *)
Fixpoint quoteFree (s : string) : bool :=
  match s with
  | EmptyString => true
  | String c s' => negb (bool_decide (c = "034"%char)) && quoteFree s'
  end.

(** ** Import *)

(** The import stores what [JSON.parse] returned, without checking it
    against the declared types: its store holds a JSON value.  Everything
    else in this development is about configurations of the declared type
    [FunnelConfig]. *)

(** [typeof v === 'object'] for a truthy [v]. *)
Definition isObject (v : json) : bool :=
  match v with
  | JArr _ _ | JObj _ => true
  | _ => false
  end.

(** [v[k]] for a property name that is neither an index nor [length]. *)
Definition getProp (k : string) (v : json) : option json :=
  match v with
  | JObj fields => lookupKey k fields
  | JArr _ props => lookupKey k props
  | _ => None
  end.

(** [v[k] = x] on an object or an array. *)
Definition setProp (k : string) (x : json) (v : json) : json :=
  match v with
  | JObj fields => JObj (setKey k x fields)
  | JArr items props => JArr items (setKey k x props)
  | _ => v
  end.

(** [!doc[k] || typeof doc[k] !== 'object']. *)
Definition missingSection (k : string) (doc : json) : bool :=
  match getProp k doc with
  | Some v => negb (jsTruthy v) || negb (isObject v)
  | None => true
  end.

(** [if (!v[k]) v[k] = dflt]. *)
Definition ensureProp (k : string) (dflt : json) (v : json) : json :=
  match getProp k v with
  | Some x => if jsTruthy x then v else setProp k dflt v
  | None => setProp k dflt v
  end.

(** What [ensureProp] leaves under the key: the old value when it was
    truthy, the default otherwise. *)
Definition ensured (dflt : json) (old : option json) : json :=
  match old with
  | Some x => if jsTruthy x then x else dflt
  | None => dflt
  end.

Definition themeSections : list string :=
  ["colors"; "fonts"; "spacing"; "border_radius"; "width"; "border"].

Definition emptyObject : json := JObj [].

Definition defaultLayout : json :=
  JObj [("header", JObj [("template", JStr "header"); ("template_data", emptyObject)]);
        ("footer", JObj [("template", JStr "footer"); ("template_data", emptyObject)])].

(** The theme with its six sub-objects ensured, in the order of the source. *)
Definition backfillTheme (t : json) : json :=
  fold_left (fun t k => ensureProp k emptyObject t) themeSections t.

(** The document after the two backfills. *)
Definition backfill (doc : json) : json :=
  let doc1 :=
    match getProp "theme" doc with
    | Some t => setProp "theme" (backfillTheme t) doc
    | None => doc
    end in
  ensureProp "layout" defaultLayout doc1.

(** [Object.keys(v)[0]]. *)
Definition firstKey (v : json) : option string :=
  match v with
  | JObj fields => head (keys fields)
  | JArr [] props => head (keys props)
  | JArr (_ :: _) _ => Some "0"
  | _ => None
  end.

Section ImportHandler.
(** [String(v)], the conversion a template literal applies to a value;
    [None] when the conversion throws, as it does for an object with a
    [toString] property of its own. *)
Variable jsToString : json -> option string.

(** [x || fallback] inside the template literal of the success toast. *)
Definition orElse (x : option json) (fallback : string) : option string :=
  match x with
  | Some v => if jsTruthy v then jsToString v else Some fallback
  | None => Some fallback
  end.

(** The template literal of the success toast; [None] when it throws. *)
Definition loadedMessage (fileName : string) (doc : json) : option string :=
  match orElse (getProp "name" doc) fileName with
  | Some shown =>
      match orElse (getProp "version" doc) "?" with
      | Some version =>
          Some ("Config loaded: " +:+ shown +:+ " (v" +:+ version +:+ ")")
      | None => None
      end
  | None => None
  end.

(** The [onload] handler of [loadConfig]; [parsed] is what [JSON.parse]
    made of the file, [None] when it threw.  The state is replaced before
    the toast is composed: when the template literal throws, the [catch]
    shows the toast of a parse error over the configuration that was just
    loaded. *)
Definition loadConfig (fileName : string) (parsed : option json)
    (s : Store json) : Store json :=
  match parsed with
  | None | Some JNull =>
      notify "Error parsing JSON file. Check the file format." ToastError s
  | Some doc =>
      if missingSection "pages" doc
      then notify "Invalid config: missing 'pages' object." ToastError s
      else if missingSection "theme" doc
      then notify "Invalid config: missing 'theme' object." ToastError s
      else if missingSection "templates" doc
      then notify "Invalid config: missing 'templates' object." ToastError s
      else
        let doc' := backfill doc in
        let s1 := mkStore doc' (mkHistory [] []) (activePageId s) (notification s) in
        let s2 :=
          match getProp "pages" doc' ≫= firstKey with
          | Some k => if nonEmpty k then setActivePageId k s1 else s1
          | None => s1
          end in
        match loadedMessage fileName doc' with
        | Some msg => notify msg ToastSuccess s2
        | None => notify "Error parsing JSON file. Check the file format." ToastError s2
        end
  end.
End ImportHandler.

(** The document has an object under [k]. *)
Definition hasSection (k : string) (doc : json) : Prop :=
  ∃ v, getProp k doc = Some v ∧ jsTruthy v = true ∧ isObject v = true.

(** ** Rendering engine *)

(** [resolveProp]: a string that starts with an underscore is looked up in
    the data (a missing key, or missing data, gives [null]); anything else
    is returned as it is. *)
Definition resolveProp (value : json) (data : list (string * json)) : json :=
  match value with
  | JStr s => if startsWith "_" s then default JNull (lookupKey s data) else value
  | _ => value
  end.

Definition resolveProps (props data : list (string * json)) : list (string * json) :=
  (fun kv => (kv.1, resolveProp kv.2 data)) <$> props.

(** What the walker hands to a component as its children: the elements of
    the child nodes, or the data a string names.  They are a prop of the
    component, which decides what becomes of them.  The element of a child
    node is a [RecursiveRenderer] element, which React runs once the
    element is mounted; it is written here as the fragment the walker
    returns for the child when it runs. *)
Inductive RenderedChildren (R : Type) : Type :=
  | NoChildren
  | RenderedNodes (fragments : list R)
  | RawData (value : json).
Arguments NoChildren {R}.
Arguments RenderedNodes {R} fragments.
Arguments RawData {R} value.

(** The fragment the walker returns for a node: nothing, the red
    "Unknown: name" box, or the element of the registered component with
    its resolved props, the theme and its children.  What the component
    draws from them is not part of the fragment: see [mountedAt]. *)
Inductive Rendered : Type :=
  | RNull
  | RUnknown (componentName : string)
  | RElement (componentName : string) (props : list (string * json))
             (theme : ThemeConfig) (children : RenderedChildren Rendered).

(** The names [COMPONENT_REGISTRY] has an entry of its own for. *)
Definition COMPONENT_REGISTRY : list string :=
  ["Page"; "Box"; "Gap"; "Divider"; "Text"; "Title"; "Subtitle"; "RichText";
   "ImageBox"; "Button"; "ItemPicker"; "FocusAreas"; "UnitToggle"; "LengthInput";
   "WeightInput"; "NumericInput"; "DatePicker"; "TextInput"; "NotificationCard";
   "LinksBox"; "PageProgressBar"; "AnimatedChart"; "Checkout"; "Countdown";
   "Carousel"; "BmiChart"; "BmiReport"; "BmiNotification"; "GoalNotification";
   "WeightLossChart"].

(** The names under which [COMPONENT_REGISTRY[name]] finds something: its
    own entries and the properties it inherits. *)
Definition registeredNames : list string := COMPONENT_REGISTRY ++ inheritedNames.

(** The registered components that return their [children] as part of
    what they draw: React mounts the elements of the child nodes of these
    and of no others.  Every other component draws from its props alone
    ([LinksBox] reads [children] as a list of links). *)
Definition CONTAINERS : list string := ["Page"; "Box"].

(** [node.component || node.type], when truthy. *)
Definition componentNameOf (type component : option string) : option string :=
  if truthy component then component
  else if truthy type then type
  else None.

Definition nodeName (node : ComponentNode) : option string :=
  match node with
  | Node type component _ _ => componentNameOf type component
  end.

(** The child nodes of a node whose [children] is an array. *)
Definition childNodes (node : ComponentNode) : list ComponentNode :=
  match node with
  | Node _ _ _ (Some (ChildNodes nodes)) => nodes
  | _ => []
  end.

Section Renderer.
(** The registry is open: the walker is the same for any set of names. *)
Variable registry : list string.
(** So is the set of the components that mount their children. *)
Variable containers : list string.

Fixpoint RecursiveRenderer (data : list (string * json)) (theme : ThemeConfig)
    (node : ComponentNode) : Rendered :=
  match node with
  | Node type component props children =>
      match componentNameOf type component with
      | None => RNull
      | Some componentName =>
          if bool_decide (componentName ∈ registry)
          then
            RElement componentName (resolveProps props data) theme
              match children with
              | Some (ChildNodes nodes) =>
                  RenderedNodes (map (RecursiveRenderer data theme) nodes)
              | Some (ChildRef key) =>
                  if nonEmpty key then RawData (resolveProp (JStr key) data)
                  else NoChildren
              | None => NoChildren
              end
          else RUnknown componentName
      end
  end.

(** The page: the template-not-found box, or the wrapper around the header,
    the rendered template and the footer. *)
Inductive Screen : Type :=
  | TemplateNotFound (templateName : string)
  | PageWrapper (headerContent : option Rendered) (content : Rendered)
                (footerContent : option Rendered).

(** Under one of the [inheritedNames] that is no template of the
    configuration, [config.templates[name]] finds a function or the
    prototype: a node without [component] and [type], which renders to
    nothing. *)
Definition layoutContent (config : FunnelConfig) (enabled : option bool)
    (slot : LayoutSlot) : option Rendered :=
  match enabled with
  | Some true =>
      match lookupKey (slot_template slot) (templates config) with
      | Some def => Some (RecursiveRenderer (slot_template_data slot) (theme config) def)
      | None => if inheritedName (slot_template slot) then Some RNull else None
      end
  | _ => None
  end.

Definition Renderer (config : FunnelConfig) (page : PageConfig) : Screen :=
  match lookupKey (template page) (templates config) with
  | None =>
      if inheritedName (template page)
      then PageWrapper
             (layoutContent config (header page) (layout_header (layout config)))
             RNull
             (layoutContent config (footer page) (layout_footer (layout config)))
      else TemplateNotFound (template page)
  | Some templateDef =>
      PageWrapper
        (layoutContent config (header page) (layout_header (layout config)))
        (RecursiveRenderer (template_data page) (theme config) templateDef)
        (layoutContent config (footer page) (layout_footer (layout config)))
  end.

(** Every proper ancestor on the way down [p] has a registered name. *)
Fixpoint reached (p : list nat) (node : ComponentNode) : bool :=
  match p with
  | [] => true
  | i :: p' =>
      match nodeName node, childNodes node !! i with
      | Some k, Some child => bool_decide (k ∈ registry) && reached p' child
      | _, _ => false
      end
  end.

(** Every proper ancestor on the way down [p] is a registered container. *)
Fixpoint throughContainers (p : list nat) (node : ComponentNode) : bool :=
  match p with
  | [] => true
  | i :: p' =>
      match nodeName node, childNodes node !! i with
      | Some k, Some child =>
          bool_decide (k ∈ registry) && bool_decide (k ∈ containers) &&
          throughContainers p' child
      | _, _ => false
      end
  end.
End Renderer.

(** The node at a position, a position being the indices to follow from
    the root through the arrays of children. *)
Fixpoint nodeAt (p : list nat) (node : ComponentNode) : option ComponentNode :=
  match p with
  | [] => Some node
  | i :: p' => childNodes node !! i ≫= nodeAt p'
  end.

(** The fragment at a position of the output. *)
Fixpoint renderedAt (p : list nat) (r : Rendered) : option Rendered :=
  match p with
  | [] => Some r
  | i :: p' =>
      match r with
      | RElement _ _ _ (RenderedNodes fragments) => fragments !! i ≫= renderedAt p'
      | _ => None
      end
  end.

(** The fragment React mounts at a position: the way down leads through
    the children of containers only. *)
Fixpoint mountedAt (containers : list string) (p : list nat) (r : Rendered)
    : option Rendered :=
  match p with
  | [] => Some r
  | i :: p' =>
      match r with
      | RElement k _ _ (RenderedNodes fragments) =>
          if bool_decide (k ∈ containers)
          then fragments !! i ≫= mountedAt containers p'
          else None
      | _ => None
      end
  end.

(** Rendering totality in the words of the specification: whatever the
    tree, it does not render to nothing and every node of unregistered kind
    has its placeholder in the output. *)
Definition totalForUnknownKinds (registry : list string) : Prop :=
  ∀ data theme root p node k,
    nodeAt p root = Some node -> nodeName node = Some k -> k ∉ registry ->
    RecursiveRenderer registry data theme root ≠ RNull ∧
    renderedAt p (RecursiveRenderer registry data theme root) = Some (RUnknown k).

(** ** Sample funnels *)

Module Sample.
Definition page (n p : string) (data : list (string * json)) : PageConfig :=
  mkPage n p "quiz" data None None None None.

Definition goTo (p : string) : EventLogic :=
  mkEvent (Some (mkRoute (Some p) None)) [("quiz_answer", JStr "age")].

Definition emptyTheme : ThemeConfig := mkTheme [] [] [] [] [] [].

Definition plainLayout : LayoutConfig :=
  mkLayout (mkSlot "header" []) (mkSlot "footer" []).

Definition funnel (ps : list (string * PageConfig))
    (er : list (string * EventLogic)) : FunnelConfig :=
  mkConfig 1 "sample" None "brand" 1 [] plainLayout ps emptyTheme er None None.

Definition session (active : string) (c : FunnelConfig) : Store FunnelConfig :=
  mkStore c (mkHistory [] []) active None.

(** Four pages; the quiz, at path 3, owns an event that continues to the
    next page. *)
Definition fourPages : list (string * PageConfig) :=
  [("intro", page "Intro" "1" []);
   ("about", page "About" "2" []);
   ("quiz", page "Quiz" "3" [("_on_click", JStr "quiz_done")]);
   ("result", page "Result" "4" [])].

Definition fourRouting : list (string * EventLogic) :=
  [("quiz_done", goTo "4")].

(** Five pages; the second one owns an event that jumps to the last. *)
Definition fivePages : list (string * PageConfig) :=
  [("b", page "B" "1" []);
   ("a", page "A" "2" [("_on_skip", JStr "skip_to_offer")]);
   ("x", page "X" "3" []);
   ("y", page "Y" "4" []);
   ("c", page "C" "5" [])].

Definition fiveRouting : list (string * EventLogic) :=
  [("skip_to_offer", goTo "5")].
End Sample.

Module SampleBranch.
Import Sample.

(** A conditional branch as the events editor creates it: no default
    route, one condition, whose target the author has set to page 3. *)
Definition branch (t : string) : EventLogic :=
  mkEvent
    (Some (mkRoute (Some EmptyString)
       (Some [mkCondition (Some "plan") (Some t)
                [("operator", JStr "eq"); ("value", JStr "pro")]])))
    [("quiz_answer", JStr "plan")].

Definition threePages : list (string * PageConfig) :=
  [("p1", page "Plan" "1" [("_on_select", JStr "plan_selected")]);
   ("p2", page "Basic" "2" []);
   ("p3", page "Pro" "3" [])].

Definition branchRouting : list (string * EventLogic) :=
  [("plan_selected", branch "3")].


End SampleBranch.

Module SampleEmptyKey.
Import Sample.

(** Three pages, the first stored under the empty key; it uses an event
    that continues to the next page. *)
Definition threePages : list (string * PageConfig) :=
  [("", page "Start" "1" [("_on_click", JStr "go")]);
   ("b", page "B" "2" []);
   ("c", page "C" "3" [])].

Definition routing : list (string * EventLogic) := [("go", goTo "2")].
End SampleEmptyKey.

Module SampleImport.
(** The conversion to a string, on the values the samples hold: strings,
    booleans, integers, empty arrays and objects.  An object with a
    [toString] of its own cannot be converted. *)
Definition display (v : json) : option string :=
  match v with
  | JStr s => Some s
  | JBool true => Some "true"
  | JBool false => Some "false"
  | JNull => Some "null"
  | JNum q => Some (pretty (Qnum q))
  | JArr _ _ => Some EmptyString
  | JObj fields =>
      match lookupKey "toString" fields with
      | Some _ => None
      | None => Some "[object Object]"
      end
  end.

Definition current : json :=
  JObj [("name", JStr "Current"); ("pages", JObj []); ("theme", JObj []);
        ("templates", JObj [])].

(** A theme with colours only, and no layout. *)
Definition partial : json :=
  JObj [("name", JStr "Quiz");
        ("pages", JObj [("intro", JObj [("path", JStr "1")])]);
        ("theme", JObj [("colors", JObj [("primary", JStr "#ff0000")])]);
        ("templates", JObj [])].

Definition themeless : json :=
  JObj [("name", JStr "Quiz");
        ("pages", JObj [("intro", JObj [("path", JStr "1")])]);
        ("templates", JObj [])].

(** A complete document whose name is an object that cannot be shown. *)
Definition unnamed : json :=
  JObj [("name", JObj [("toString", JNum (Qmake 5 1))]);
        ("pages", JObj [("intro", JObj [("path", JStr "1")])]);
        ("theme", JObj []);
        ("templates", JObj [])].
End SampleImport.

Module SampleTree.
Definition leaf (kind : string) : ComponentNode := Node None (Some kind) [] None.

Definition box (kind : string) (nodes : list ComponentNode) : ComponentNode :=
  Node None (Some kind) [] (Some (ChildNodes nodes)).

(** A page with a title, a node of a kind nobody registered, and a button. *)
Definition withStranger : ComponentNode :=
  box "Page" [Node None (Some "Title") [("text", JStr "_title_text")] None;
              leaf "Sparkline";
              leaf "Button"].

(** An unregistered kind inside an unregistered kind. *)
Definition nested : ComponentNode := box "Tabs" [leaf "Sparkline"].

(** A root without [component] and without [type]. *)
Definition nameless : ComponentNode :=
  Node None None [] (Some (ChildNodes [leaf "Sparkline"])).

(** An unregistered kind under a button, which does not mount children. *)
Definition underButton : ComponentNode :=
  box "Page" [box "Button" [leaf "Sparkline"]].
End SampleTree.

(** * The rest of the provider *)

(** ** Page and template edits that do not reindex *)

(** [{ ...prev, pages: ps }]. *)
Definition withPages (prev : FunnelConfig) (ps : list (string * PageConfig)) : FunnelConfig :=
  withPagesAndRouting prev ps (event_routing prev).


Definition updatePage (pageId : string) (newConfig : PageConfig)
    (s : Store FunnelConfig) : Store FunnelConfig :=
  setConfig (fun prev => withPages prev (setKey pageId newConfig (pages prev))) s.




(** ** Export *)

Record ExportResult : Type := mkExport {
  export_config : FunnelConfig;
  export_errors : list ValidationError
}.

(** The copy that is downloaded: the preview page is removed and the paths
    are renumbered in place; the errors are those of the configuration as
    it stands. *)
Definition prepareConfigForExport (config : FunnelConfig) : ExportResult :=
  let remaining := withoutKey "__template_preview__" (pages config) in
  let compiled := withPages config (reindexPages remaining) in
  let errors := validateConfig config in
  let criticalErrors :=
    filter (fun e => issue_type e = SevError ∧ issue_field e ≠ "pages") errors in
  {| export_config := compiled; export_errors := criticalErrors |}.

(** ** Sessions of history operations *)

Inductive HistoryStep (G : Type) : Type :=
  | Mutation (updater : G -> G)
  | Undo
  | Redo.
Arguments Mutation {G} updater.
Arguments Undo {G}.
Arguments Redo {G}.

Definition runStep {G} (s : Store G) (step : HistoryStep G) : Store G :=
  match step with
  | Mutation f => setConfig f s
  | Undo => undo s
  | Redo => redo s
  end.

Definition runSteps {G} (steps : list (HistoryStep G)) (s : Store G) : Store G :=
  fold_left runStep steps s.

(** [canUndo] and [canRedo] of the context value. *)
Definition canUndo {G} (s : Store G) : bool :=
  (0 <? length (past (history s)))%nat.

Definition canRedo {G} (s : Store G) : bool :=
  (0 <? length (future (history s)))%nat.

(** ** Canonical routes *)

(** A route target written the way [toString] writes a number. *)
Definition canonical (t : string) : Prop := toString (parseInt t) = t.

(** Every default route of the table is canonical. *)
Definition canonicalRoutes (eventRouting : list (string * EventLogic)) : Prop :=
  ∀ eventName event r t,
    (eventName, event) ∈ eventRouting -> route event = Some r -> to r = Some t ->
    t ≠ EmptyString -> canonical t.

(** The names and the targets of the table are none of the names every
    object inherits, so that the lookups of the migrator are own-property
    lookups, and every default route reads as a safe integer or as
    [NaN]. *)
Definition ordinaryRoutes (eventRouting : list (string * EventLogic)) : Prop :=
  ∀ eventName event,
    (eventName, event) ∈ eventRouting ->
    inheritedName eventName = false ∧
    ∀ r, route event = Some r ->
      (∀ t, to r = Some t -> safeInteger t ∧ inheritedName t = false) ∧
      (∀ conds cond t, conditions r = Some conds -> cond ∈ conds ->
         target cond = Some t -> inheritedName t = false).

(** Every path reads as a safe integer or as [NaN]. *)
Definition safePaths (ps : list (string * PageConfig)) : Prop :=
  ∀ k page, (k, page) ∈ ps -> safeInteger (path page).

(** The numbers 1 .. n, as the validator builds them. *)
Definition expectedPaths (n : nat) : list Z :=
  (fun i : nat => Z.of_nat (S i)) <$> seq 0 n.

(** How many configurations the history holds. *)
Definition historySize {G} (s : Store G) : nat :=
  (length (past (history s)) + length (future (history s)))%nat.

(** ** What the validator's third check looks for *)

(** The entry has a target that is no page's path: its default route or
    the target of one of its conditions (an empty target is no target). *)
Definition danglingTarget (validPaths : gset string) (event : EventLogic) : Prop :=
  ∃ r, route event = Some r ∧
    ((∃ t, to r = Some t ∧ t ≠ EmptyString ∧ t ∉ validPaths) ∨
     (∃ conds cond t, conditions r = Some conds ∧ cond ∈ conds ∧
        target cond = Some t ∧ t ≠ EmptyString ∧ t ∉ validPaths)).

(** An issue of severity error on the field [event_routing]. *)
Definition routingError (e : ValidationError) : Prop :=
  issue_type e = SevError ∧ issue_field e = "event_routing".

(** ** The workspace invariant *)

(** The page keys are distinct, as the keys of an object are, and the
    active page is one of the pages. *)
Definition wellFormed (s : Store FunnelConfig) : Prop :=
  NoDup (keys (pages (config s))) ∧ activePageId s ∈ keys (pages (config s)).



(** ** Reading a template tree *)


(** A property of the child nodes of a node, when it has an array of them. *)
Definition childrenAll (P : ComponentNode -> Prop)
    (children : option (NodeChildren ComponentNode)) : Prop :=
  match children with
  | Some (ChildNodes nodes) => Forall P nodes
  | _ => True
  end.

(** Two dictionaries that hold the same value under every key that starts
    with an underscore. *)
Definition sameBindings (data data' : list (string * json)) : Prop :=
  ∀ k, startsWith "_" k = true -> lookupKey k data = lookupKey k data'.

(** ** Documents the import leaves alone *)

(** The theme has its six sub-sections and the document has a layout. *)
Definition completeDocument (doc : json) : Prop :=
  (∃ t, getProp "theme" doc = Some t ∧
     ∀ k, k ∈ themeSections -> ∃ x, getProp k t = Some x ∧ jsTruthy x = true) ∧
  (∃ l, getProp "layout" doc = Some l ∧ jsTruthy l = true).

(** The active page after a successful import of [doc] into [s]. *)
Definition firstPageOr (doc : json) (current : string) : string :=
  match getProp "pages" doc ≫= firstKey with
  | Some k => if nonEmpty k then k else current
  | None => current
  end.

(** ** What the validator calls an error *)

(** The path is there and [parseInt] reads a number from it. *)
Definition usablePath (page : PageConfig) : Prop :=
  nonEmpty (path page) = true ∧ is_Some (parseInt10 (path page)).

(** The page names a template, and [templates[name]] finds something: a
    template of the configuration, or one of the properties the collection
    inherits as every object does. *)
Definition knownTemplate (templates : list (string * ComponentNode))
    (page : PageConfig) : Prop :=
  nonEmpty (template page) = true ∧ hasProperty (template page) templates = true.

(** The four conditions whose failure the validator reports as an error. *)
Definition errorFree (c : FunnelConfig) : Prop :=
  (∀ k page, (k, page) ∈ pages c -> usablePath page) ∧
  numericPaths (pages c) ≡ₚ expectedPaths (length (numericPaths (pages c))) ∧
  (∀ k page, (k, page) ∈ pages c -> knownTemplate (templates c) page) ∧
  (∀ eventName event, (eventName, event) ∈ event_routing c ->
     ¬ danglingTarget (validPathsOf (pages c)) event).

(** * Properties *)

(** ** Ordered dictionaries *)

Section DictFacts.
Context {A B : Type}.
Implicit Types (d : list (string * A)) (k : string).

Lemma lookupKey_fmap (f : string -> A -> B) k d :
  lookupKey k ((fun kv => (kv.1, f kv.1 kv.2)) <$> d) = f k <$> lookupKey k d.
Proof.
  induction d as [|[k' v] d IH]; simpl; [done|].
  destruct (decide (k' = k)) as [->|]; [done|]. apply IH.
Qed.

Lemma lookupKey_Some_elem k v d : lookupKey k d = Some v -> (k, v) ∈ d.
Proof.
  induction d as [|[k' v'] d IH]; simpl; [done|].
  destruct (decide (k' = k)) as [->|].
  - intros [= ->]. left.
  - intros H. right. auto.
Qed.

Lemma lookupKey_None k d : lookupKey k d = None <-> k ∉ keys d.
Proof.
  unfold keys. induction d as [|[k' v'] d IH]; simpl.
  - split; [intros _; apply not_elem_of_nil | done].
  - rewrite not_elem_of_cons. destruct (decide (k' = k)) as [->|].
    + split; [done | intros [? _]; done].
    + rewrite IH. split; [by split | by intros [_ ?]].
Qed.

Lemma lookupKey_is_Some k d : is_Some (lookupKey k d) <-> k ∈ keys d.
Proof.
  destruct (lookupKey k d) eqn:E.
  - split; [|eauto]. intros _. apply lookupKey_Some_elem in E.
    unfold keys. apply list_elem_of_fmap. by exists (k, a).
  - apply lookupKey_None in E. split; [by intros [? ?]|done].
Qed.

Lemma setKey_fresh k v d : k ∉ keys d -> setKey k v d = d ++ [(k, v)].
Proof.
  unfold keys. induction d as [|[k' v'] d IH]; simpl; [done|].
  rewrite not_elem_of_cons. intros [? ?].
  destruct (decide (k' = k)); [congruence|]. by rewrite IH.
Qed.

Lemma fromEntries_acc (acc entries : list (string * A)) :
  NoDup (keys (acc ++ entries)) ->
  fold_left (fun acc kv => setKey kv.1 kv.2 acc) entries acc = acc ++ entries.
Proof.
  revert acc. induction entries as [|[k v] entries IH]; intros acc Hnd; simpl.
  - by rewrite app_nil_r.
  - rewrite setKey_fresh.
    + rewrite IH; rewrite <- app_assoc; simpl; done.
    + unfold keys in *. rewrite fmap_app in Hnd. apply NoDup_app in Hnd as (_ & Hd & _).
      intros Hin. apply (Hd k Hin). simpl. left.
Qed.

(** Entries whose keys are distinct make the object they list. *)
Lemma fromEntries_NoDup d : NoDup (keys d) -> fromEntries d = d.
Proof. intros H. unfold fromEntries. by rewrite fromEntries_acc. Qed.
End DictFacts.

(** ** Decimal rendering *)

Lemma pretty_N_go_nonempty (x : N) (s : string) :
  s ≠ EmptyString -> pretty_N_go x s ≠ EmptyString.
Proof.
  revert s. induction (N.lt_wf_0 x) as [x _ IH]; intros s Hs.
  destruct (decide (x = 0%N)) as [->|Hx].
  - by rewrite pretty_N_go_0.
  - rewrite pretty_N_go_step by lia. apply IH; [|done].
    apply N.div_lt; lia.
Qed.

Lemma pretty_N_nonempty (x : N) : pretty x ≠ EmptyString.
Proof.
  unfold pretty, pretty_N. case_decide; [done|].
  rewrite pretty_N_go_step by lia. by apply pretty_N_go_nonempty.
Qed.

Lemma indexToPath_nonempty (i : nat) : indexToPath i ≠ EmptyString.
Proof. apply pretty_N_nonempty. Qed.

Lemma indexToPath_inj (i j : nat) : indexToPath i = indexToPath j -> i = j.
Proof. unfold indexToPath. intros H. apply (inj pretty) in H. lia. Qed.

(** [parseInt] reads back what [toString] writes. *)

Lemma pretty_N_char_digit (d : N) :
  (d < 10)%N ->
  isDecimalDigit (pretty_N_char d) = true ∧
  digitValue 10 (pretty_N_char d) = Some (Z.of_N d).
Proof.
  intros H.
  assert (d = 0 ∨ d = 1 ∨ d = 2 ∨ d = 3 ∨ d = 4 ∨ d = 5 ∨ d = 6 ∨ d = 7 ∨ d = 8 ∨ d = 9)%N
    as Hd by lia.
  repeat (destruct Hd as [->|Hd]; [by vm_compute|]). subst. by vm_compute.
Qed.

Lemma pretty_N_go_decimal (x : N) (s : string) :
  allDecimal s = true -> allDecimal (pretty_N_go x s) = true.
Proof.
  revert s. induction (N.lt_wf_0 x) as [x _ IH]; intros s Hs.
  destruct (decide (x = 0%N)) as [->|Hx].
  - by rewrite pretty_N_go_0.
  - rewrite pretty_N_go_step by lia. apply IH; [apply N.div_lt; lia|].
    simpl. rewrite Hs.
    by destruct (pretty_N_char_digit (x `mod` 10)%N) as [-> _];
      [apply N.mod_lt|].
Qed.

Lemma parseDigits_pretty_N_go (x : N) (s : string) :
  parseDigits 10 0 (pretty_N_go x s) = parseDigits 10 (Z.of_N x) s.
Proof.
  revert s. induction (N.lt_wf_0 x) as [x _ IH]; intros s.
  destruct (decide (x = 0%N)) as [->|Hx].
  - by rewrite pretty_N_go_0.
  - rewrite pretty_N_go_step by lia. rewrite IH by (apply N.div_lt; lia).
    simpl. destruct (pretty_N_char_digit (x `mod` 10)%N) as [_ ->]; [by apply N.mod_lt|].
    f_equal. pose proof (N.div_mod x 10 ltac:(lia)) as Hdm. lia.
Qed.

(** A string of decimal digits is read in base ten. *)
Lemma parseInt_decimal (s : string) :
  s ≠ EmptyString -> allDecimal s = true -> parseInt s = Some (parseDigits 10 0 s).
Proof.
  assert (∀ c, isDecimalDigit c = true ->
            c = "0" ∨ c = "1" ∨ c = "2" ∨ c = "3" ∨ c = "4" ∨
            c = "5" ∨ c = "6" ∨ c = "7" ∨ c = "8" ∨ c = "9")%char as Hdigit.
  { intros [[] [] [] [] [] [] [] []] H; try discriminate H;
      repeat first [left; reflexivity | right; try reflexivity]. }
  destruct s as [|c1 s]; [done|]. intros _ H. simpl in H.
  apply andb_prop in H as [H1 H]. apply Hdigit in H1.
  destruct s as [|c2 s].
  - by decompose [or] H1; subst.
  - simpl in H. apply andb_prop in H as [H2 _]. apply Hdigit in H2.
    decompose [or] H1; decompose [or] H2; subst;
      cbv -[parseDigits Z.mul];
      f_equal; apply Z.mul_1_l.
Qed.

Lemma parseInt_pretty_N (x : N) : parseInt (pretty x) = Some (Z.of_N x).
Proof.
  unfold pretty, pretty_N. case_decide as Hx; [by subst|].
  rewrite parseInt_decimal.
  - by rewrite parseDigits_pretty_N_go.
  - rewrite pretty_N_go_step by lia. by apply pretty_N_go_nonempty.
  - by apply pretty_N_go_decimal.
Qed.

Lemma parseInt_indexToPath (i : nat) : parseInt (indexToPath i) = Some (Z.of_nat (S i)).
Proof.
  unfold indexToPath, pretty, pretty_nat. rewrite parseInt_pretty_N. reflexivity.
Qed.

(** The successor of the path at index [i] is the path at index [i + 1]. *)
Lemma toString_successor (i : nat) :
  toString ((fun n => n + 1) <$> parseInt (indexToPath i)) = indexToPath (S i).
Proof.
  rewrite parseInt_indexToPath. unfold toString. cbn [fmap option_fmap option_map].
  replace (Z.of_nat (S i) + 1) with (Z.pos (Pos.of_succ_nat (S i))) by lia.
  reflexivity.
Qed.

(** ** Path reindexer *)

Lemma reindexPages_length ps : length (reindexPages ps) = length ps.
Proof. apply length_imap. Qed.

Lemma reindexPages_lookup ps (i : nat) :
  reindexPages ps !! i = (fun kv => (kv.1, withPath kv.2 (indexToPath i))) <$> ps !! i.
Proof. apply list_lookup_imap. Qed.

Lemma reindexPages_keys ps : keys (reindexPages ps) = keys ps.
Proof.
  unfold keys, reindexPages. apply list_eq. intros i.
  rewrite !list_lookup_fmap, list_lookup_imap. by destruct (ps !! i).
Qed.

Lemma reindexPages_sequential ps : pathsSequential (reindexPages ps).
Proof.
  unfold pathsSequential, values. apply list_eq. intros i.
  rewrite !list_lookup_fmap, reindexPages_lookup, reindexPages_length.
  destruct (ps !! i) as [kv|] eqn:E; simpl.
  - rewrite lookup_seq_lt; [done|]. by eapply lookup_lt_Some.
  - rewrite lookup_seq_ge; [done|]. by apply lookup_ge_None.
Qed.


Lemma pathsSequential_lookup ps (i : nat) kv :
  pathsSequential ps -> ps !! i = Some kv -> path kv.2 = indexToPath i.
Proof.
  unfold pathsSequential, values. intros H E.
  assert ((path <$> ps.*2) !! i = Some (path kv.2)) as H1
    by (by rewrite !list_lookup_fmap, E).
  rewrite H, list_lookup_fmap, lookup_seq_lt in H1 by (by eapply lookup_lt_Some).
  simpl in H1. congruence.
Qed.




(** ** Route migrator *)

Lemma fold_left_invariant {A B} (P : B -> Prop) (f : B -> A -> B) (l : list A) (b : B) :
  P b -> (∀ b a, a ∈ l -> P b -> P (f b a)) -> P (fold_left f l b).
Proof.
  revert b. induction l as [|a l IH]; intros b Hb Hstep; simpl; [done|].
  apply IH.
  - apply Hstep; [left | done].
  - intros b' a' Hin. apply Hstep. by right.
Qed.

Lemma migrateLoop_routing (oldPages newPages : list (string * PageConfig))
    (pathMap eventOwnerMap : gmap string string)
    (l : list (string * EventLogic)) (acc : Migration) :
  routing (fold_left (fun acc kv =>
    let '(event, kind) :=
      migrateEvent oldPages newPages pathMap eventOwnerMap kv.1 kv.2 in
    {| routing := routing acc ++ [(kv.1, event)];
       sequentialCount :=
         match kind with Sequential => S (sequentialCount acc) | _ => sequentialCount acc end;
       customCount :=
         match kind with Custom => S (customCount acc) | _ => customCount acc end |})
    l acc) =
  routing acc ++
  ((fun kv => (kv.1, (migrateEvent oldPages newPages pathMap eventOwnerMap kv.1 kv.2).1))
     <$> l).
Proof.
  revert acc. induction l as [|[n e] l IH]; intros acc; simpl.
  - by rewrite app_nil_r.
  - rewrite IH. destruct (migrateEvent _ _ _ _ n e) as [e' kind]; simpl.
    by rewrite <- app_assoc.
Qed.

Section Migrator.
Variables oldPages newPages : list (string * PageConfig).
Variable eventRouting : list (string * EventLogic).

Let pathMap := buildPathMap oldPages newPages.
Let eventOwnerMap := buildEventOwnerMap oldPages eventRouting.
Let migrated := routing (reindexEventRouting oldPages newPages eventRouting).

(** The migrated table lists the same names in the same order, each with
    the entry the loop body makes of it. *)
Lemma reindexEventRouting_routing :
  migrated =
  (fun kv => (kv.1, (migrateEvent oldPages newPages pathMap eventOwnerMap kv.1 kv.2).1))
    <$> eventRouting.
Proof.
  subst migrated. unfold reindexEventRouting. fold pathMap. fold eventOwnerMap.
  case_decide as Hempty.
  - destruct Hempty as [_ Hlen]. by destruct eventRouting.
  - apply (migrateLoop_routing oldPages newPages pathMap eventOwnerMap eventRouting
             {| routing := []; sequentialCount := 0; customCount := 0 |}).
Qed.

Lemma migrated_lookup eventName :
  lookupKey eventName migrated =
  (fun e => (migrateEvent oldPages newPages pathMap eventOwnerMap eventName e).1)
    <$> lookupKey eventName eventRouting.
Proof.
  rewrite reindexEventRouting_routing.
  apply (lookupKey_fmap
    (fun n e => (migrateEvent oldPages newPages pathMap eventOwnerMap n e).1)).
Qed.



End Migrator.

Lemma parseInt_Some_nonEmpty s n : parseInt s = Some n -> nonEmpty s = true.
Proof. by destruct s. Qed.



(** Closes [safeInteger s] for a string that is given. *)
Ltac safe_integer :=
  let n := fresh "n" in
  let H := fresh "H" in
  intros n H; vm_compute in H;
  first [ discriminate H
        | injection H as <-; unfold MAX_SAFE_INTEGER; lia ].







(** Conditions of an entry that has a [route.to]: each target that the path
    map knows is replaced by its image, whatever the owner of the entry. *)
Lemma migrateConditions_lookup (pathMap : gmap string string)
    (conds : list Condition) (i : nat) cond t :
  conds !! i = Some cond -> target cond = Some t -> t ≠ EmptyString ->
  ∃ cond', migrateConditions pathMap conds !! i = Some cond' ∧
    target cond' = Some (default t (mapped pathMap t)) ∧
    field cond' = field cond ∧ cond_other cond' = cond_other cond.
Proof.
  intros Hc Ht Hne. unfold migrateConditions. rewrite list_lookup_fmap, Hc. simpl.
  rewrite Ht. destruct t as [|c t']; [done|]. simpl.
  destruct (mapped pathMap (String c t')); eexists; split_and!; try reflexivity; done.
Qed.

Lemma condition_targets_follow_path_map
    (oldPages newPages : list (string * PageConfig))
    (eventRouting : list (string * EventLogic))
    (eventName : string) (event : EventLogic) (r : Route) (oldRouteTo : string)
    (conds : list Condition) :
  lookupKey eventName eventRouting = Some event ->
  route event = Some r -> to r = Some oldRouteTo -> oldRouteTo ≠ EmptyString ->
  conditions r = Some conds ->
  ∃ event' r',
    lookupKey eventName (routing (reindexEventRouting oldPages newPages eventRouting))
      = Some event' ∧
    route event' = Some r' ∧
    conditions r' = Some (migrateConditions (buildPathMap oldPages newPages) conds).
Proof.
  intros Hev Hr Hto Hne Hc. rewrite migrated_lookup, Hev. simpl. unfold migrateEvent.
  rewrite Hr, Hto. destruct oldRouteTo as [|c t]; [done|]. simpl.
  match goal with |- context [let '(_, _) := ?x in _] => destruct x end.
  eexists _, _. split_and!; try reflexivity. simpl. by rewrite Hc.
Qed.

(** An entry without a truthy [route.to] leaves the loop at once: it is
    returned as it is, conditions included. *)
Lemma migrateEvent_without_route_to
    (oldPages newPages : list (string * PageConfig))
    (pathMap eventOwnerMap : gmap string string) eventName (event : EventLogic) :
  (∀ r, route event = Some r -> truthy (to r) = false) ->
  migrateEvent oldPages newPages pathMap eventOwnerMap eventName event = (event, Untouched).
Proof.
  intros H. unfold migrateEvent. destruct (route event) as [r|]; [|done].
  specialize (H r eq_refl). destruct (to r) as [t|]; [|done].
  simpl in H. by rewrite H.
Qed.

(** C3.  Condition targets of an entry with no default route.  The third
    page is moved to the front; the path map sends "3" to "1", yet the
    condition that targeted page 3 still says "3": the entry has an empty
    [route.to], so the loop skipped it before reaching its conditions. *)
Theorem condition_targets_skipped_without_route_to :
  let s := Sample.session "p1"
             (Sample.funnel SampleBranch.threePages SampleBranch.branchRouting) in
  let s' := reorderPages ["p3"; "p1"; "p2"] s in
  path <$> lookupKey "p3" (pages (config s')) = Some "1" ∧
  buildPathMap (pages (config s)) (pages (config s')) !! "3" = Some "1" ∧
  lookupKey "plan_selected" (event_routing (config s'))
    = Some (SampleBranch.branch "3") ∧
  lookupKey "plan_selected" (event_routing (config s'))
    ≠ Some (SampleBranch.branch "1").
Proof.
  intros s s'. split_and!; [vm_compute; reflexivity..|].
  assert (lookupKey "plan_selected" (event_routing (config s'))
          = Some (SampleBranch.branch "3")) as -> by (vm_compute; reflexivity).
  intros [=].
Qed.

(** ** Event ownership *)







(** ** Mutation history *)

Section HistoryFacts.
Context {G : Type}.
Implicit Types (s : Store G) (c : G).

Lemma sliceLast_short {A} (n : nat) (l : list A) :
  (length l <= n)%nat -> sliceLast n l = l.
Proof. intros H. unfold sliceLast. by replace (length l - n)%nat with 0%nat by lia. Qed.

Lemma sliceLast_length {A} (n : nat) (l : list A) :
  length (sliceLast n l) = (length l `min` n)%nat.
Proof. unfold sliceLast. rewrite length_drop. lia. Qed.

Lemma dropLast_snoc {A} (l : list A) (x : A) : dropLast (l ++ [x]) = l.
Proof.
  unfold dropLast. rewrite length_app. simpl.
  replace (length l + 1 - 1)%nat with (length l) by lia.
  by rewrite take_app_length.
Qed.

Lemma undo_empty s : past (history s) = [] -> undo s = s.
Proof. intros H. unfold undo. by rewrite H. Qed.

Lemma redo_empty s : future (history s) = [] -> redo s = s.
Proof. intros H. unfold redo. by rewrite H. Qed.

Lemma undo_snoc s (l : list G) (x : G) :
  past (history s) = l ++ [x] ->
  undo s = mkStore x (mkHistory l (config s :: future (history s)))
             (activePageId s) (notification s).
Proof. intros H. unfold undo. by rewrite H, last_snoc, dropLast_snoc. Qed.

(** [redo] takes back what [undo] did. *)
Lemma redo_undo s : past (history s) ≠ [] -> redo (undo s) = s.
Proof.
  intros H. destruct (past (history s)) as [|y l0] eqn:E using rev_ind; [done|].
  clear IHl0. rewrite (undo_snoc s l0 y E). unfold redo. simpl.
  rewrite <- E. by destruct s as [c [p f] a n].
Qed.

Lemma undo_past_length s :
  length (past (history (undo s))) = (length (past (history s)) - 1)%nat.
Proof.
  destruct (past (history s)) as [|y l0] eqn:E using rev_ind.
  - by rewrite undo_empty, E.
  - rewrite (undo_snoc s l0 y E). simpl. rewrite length_app. simpl. lia.
Qed.

Lemma redo_undo_iter (k : nat) s :
  (k <= length (past (history s)))%nat ->
  Nat.iter k redo (Nat.iter k undo s) = s.
Proof.
  revert s. induction k as [|k IH]; intros s Hk; [done|].
  rewrite Nat.iter_succ, Nat.iter_succ_r, IH.
  - apply redo_undo. intros E. rewrite E in Hk. simpl in Hk. lia.
  - rewrite undo_past_length. lia.
Qed.

Lemma superseded_length c updaters : length (superseded c updaters) = length updaters.
Proof. revert c. induction updaters as [|f fs IH]; intros c; simpl; [done|]. by rewrite IH. Qed.

Lemma mutate_history updaters s :
  (length (past (history s)) + length updaters <= MAX_HISTORY)%nat ->
  config (mutate updaters s) = latest (config s) updaters ∧
  past (history (mutate updaters s)) = past (history s) ++ superseded (config s) updaters ∧
  (updaters ≠ [] -> future (history (mutate updaters s)) = []) ∧
  activePageId (mutate updaters s) = activePageId s ∧
  notification (mutate updaters s) = notification s.
Proof.
  unfold mutate, latest. revert s.
  induction updaters as [|f fs IH]; intros s Hlen; simpl.
  - by rewrite app_nil_r.
  - simpl in Hlen. destruct (IH (setConfig f s)) as (Hc & Hp & Hf & Ha & Hn).
    + simpl. rewrite sliceLast_length, length_app. simpl. lia.
    + rewrite Hc, Hp, Ha, Hn. simpl. split_and!; try done.
      * rewrite sliceLast_short by (rewrite length_app; simpl; lia).
        by rewrite <- app_assoc.
      * intros _. destruct fs; [done|]. by apply Hf.
Qed.

Lemma undo_iter_config (l : list G) s (keep : list G) :
  past (history s) = keep ++ l ->
  config (Nat.iter (length l) undo s) = hd (config s) l ∧
  past (history (Nat.iter (length l) undo s)) = keep.
Proof.
  revert s. induction l as [|x l IH] using rev_ind; intros s Hp.
  - simpl. by rewrite app_nil_r in Hp.
  - rewrite length_app. simpl. rewrite Nat.add_comm. simpl plus.
    rewrite Nat.iter_succ_r.
    rewrite app_assoc in Hp. rewrite (undo_snoc s _ x Hp).
    destruct (IH (mkStore x (mkHistory (keep ++ l) (config s :: future (history s)))
                    (activePageId s) (notification s)) eq_refl) as [Hc Hk].
    split; [|done]. rewrite Hc. simpl. by destruct l.
Qed.
End HistoryFacts.

(** C5.  Undo/redo symmetry.  From an empty history, after [k] mutations
    with [k] at most the history cap, [k] undos lead back to the initial
    graph and [k] redos after them restore the store the mutations left:
    the same graph, the same past, an empty future.  [undo] and [redo] do
    nothing when the stack they read is empty. *)
Theorem undo_redo_symmetry {G : Type} (c0 : G) (active : string)
    (toast : option Notification) (updaters : list (G -> G)) :
  let k := length updaters in
  let s := mutate updaters (mkStore c0 (mkHistory [] []) active toast) in
  (k <= MAX_HISTORY)%nat ->
  past (history s) = superseded c0 updaters ∧
  length (past (history s)) = k ∧
  config (Nat.iter k undo s) = c0 ∧
  Nat.iter k redo (Nat.iter k undo s) = s ∧
  config (Nat.iter k redo (Nat.iter k undo s)) = latest c0 updaters ∧
  (∀ s' : Store G, past (history s') = [] -> undo s' = s') ∧
  (∀ s' : Store G, future (history s') = [] -> redo s' = s').
Proof.
  intros k s Hk.
  destruct (mutate_history updaters (mkStore c0 (mkHistory [] []) active toast))
    as (Hc & Hp & _); [simpl; lia|]. simpl in Hc, Hp. fold s in Hc, Hp.
  assert (length (past (history s)) = k) as Hlen by (by rewrite Hp, superseded_length).
  assert (Nat.iter k redo (Nat.iter k undo s) = s) as Hsym
    by (apply redo_undo_iter; lia).
  split_and!; try done.
  - destruct (undo_iter_config (superseded c0 updaters) s [] Hp) as [H _].
    rewrite superseded_length in H. fold k in H. rewrite H, Hc.
    unfold latest. by destruct updaters.
  - by rewrite Hsym.
  - apply undo_empty.
  - apply redo_empty.
Qed.

(** Three mutations, three undos, three redos. *)
Lemma undo_redo_symmetry_witness :
  let c0 := Sample.funnel Sample.fourPages Sample.fourRouting in
  let updaters : list (FunnelConfig -> FunnelConfig) :=
    [(fun prev => commitPages
        (reindexPages (setKey "offer" (Sample.page "Offer" "" []) (pages prev))) prev);
     (fun prev => commitPages (reindexPages (withoutKey "about" (pages prev))) prev);
     (fun prev => withPagesAndRouting prev (pages prev) [])] in
  let s := mutate updaters (Sample.session "intro" c0) in
  (3 <= MAX_HISTORY)%nat ∧
  config (Nat.iter 3 undo s) = c0 ∧
  Nat.iter 3 redo (Nat.iter 3 undo s) = s.
Proof.
  intros c0 updaters s. split; [unfold MAX_HISTORY; lia|].
  destruct (undo_redo_symmetry c0 "intro" None updaters) as (_ & _ & H1 & H2 & _).
  - unfold MAX_HISTORY. simpl. lia.
  - split; [exact H1 | exact H2].
Defined.

(** ** Deleting a page *)

Lemma keys_withoutKey {A} (k : string) (d : list (string * A)) :
  keys (withoutKey k d) = filter (fun k' => k' ≠ k) (keys d).
Proof.
  unfold keys, withoutKey. induction d as [|[k' v] d IH]; [done|].
  rewrite filter_cons, fmap_cons, filter_cons. simpl.
  destruct (decide (k' ≠ k)); simpl; [f_equal|]; exact IH.
Qed.





(** ** Validator *)

Lemma quoteFree_split (a b x y : string) :
  quoteFree a = true -> quoteFree b = true ->
  a +:+ dq +:+ x = b +:+ dq +:+ y -> a = b ∧ x = y.
Proof.
  revert b. induction a as [|c a IH]; intros [|d b] Ha Hb H; simpl in *.
  - by injection H.
  - injection H as <- _. apply andb_prop in Hb as [Hd _].
    by rewrite bool_decide_eq_true_2 in Hd.
  - injection H as -> _. apply andb_prop in Ha as [Hc _].
    by rewrite bool_decide_eq_true_2 in Hc.
  - injection H as -> H. apply andb_prop in Ha as [_ Ha]. apply andb_prop in Hb as [_ Hb].
    destruct (IH b Ha Hb H) as [-> ->]. done.
Qed.

Lemma occurrences_app issue (l1 l2 : list ValidationError) :
  occurrences issue (l1 ++ l2) = (occurrences issue l1 + occurrences issue l2)%nat.
Proof. unfold occurrences. by rewrite filter_app, length_app. Qed.

Lemma occurrences_absent issue (l : list ValidationError) :
  issue ∉ l -> occurrences issue l = 0%nat.
Proof.
  unfold occurrences. induction l as [|i l IH]; [done|].
  intros H. apply not_elem_of_cons in H as [Hi Hl].
  rewrite filter_cons, decide_False by done. by apply IH.
Qed.

Lemma occurrences_middle issue (pre post : list ValidationError) :
  issue ∉ pre -> issue ∉ post -> occurrences issue (pre ++ issue :: post) = 1%nat.
Proof.
  intros Hpre Hpost. rewrite occurrences_app, (occurrences_absent _ _ Hpre).
  apply occurrences_absent in Hpost. unfold occurrences in *.
  rewrite filter_cons, decide_True by done. simpl. by rewrite Hpost.
Qed.

Lemma not_elem_of_flat_map {A B} (f : A -> list B) (l : list A) (y : B) :
  (∀ x, x ∈ l -> y ∉ f x) -> y ∉ flat_map f l.
Proof.
  intros H Hin. apply list_elem_of_In, in_flat_map in Hin as (x & Hx & Hy).
  apply (H x); by apply list_elem_of_In.
Qed.

Lemma not_elem_of_concat_imap {A B} (f : nat -> A -> list B) (l : list A) (y : B) :
  (∀ i x, y ∉ f i x) -> y ∉ concat (imap f l).
Proof.
  intros H. revert f H. induction l as [|x l IH]; intros f H; simpl.
  - apply not_elem_of_nil.
  - apply not_elem_of_app. split; [apply H|]. apply IH. intros i x'. apply H.
Qed.

(** Closes [issue ∉ report] when every issue of [report] differs from
    [issue] by its severity, its field or its page. *)
Ltac issue_absent :=
  repeat first
    [ apply not_elem_of_nil
    | apply not_elem_of_app; split
    | apply not_elem_of_cons; split; [discriminate|]
    | match goal with
      | |- _ ∉ (if ?b then _ else _) => destruct b
      | |- _ ∉ match ?x with _ => _ end => destruct x
      end ].

Section DanglingRoute.
Variables (validPaths : gset string) (eventName missing : string).

Let issue := danglingRoute eventName missing.

Lemma dangling_not_checkPath kv : issue ∉ checkPath kv.
Proof. unfold issue, danglingRoute, checkPath. issue_absent. Qed.

Lemma dangling_not_checkSequence ps : issue ∉ checkSequence ps.
Proof. unfold issue, danglingRoute, checkSequence. issue_absent. Qed.

Lemma dangling_not_checkTemplate templates kv : issue ∉ checkTemplate templates kv.
Proof. unfold issue, danglingRoute, checkTemplate. issue_absent. Qed.

Lemma dangling_not_checkEventRefs eventRouting kv : issue ∉ checkEventRefs eventRouting kv.
Proof.
  unfold issue, danglingRoute, checkEventRefs. apply not_elem_of_flat_map.
  intros entry _. issue_absent.
Qed.

Lemma dangling_not_checkContent kv : issue ∉ checkContent kv.
Proof. unfold issue, danglingRoute, checkContent. issue_absent. Qed.

Lemma dangling_not_checkTheme t : issue ∉ checkTheme t.
Proof. unfold issue, danglingRoute, checkTheme. issue_absent. Qed.

Lemma dangling_not_checkPreview ps : issue ∉ checkPreview ps.
Proof. unfold issue, danglingRoute, checkPreview. issue_absent. Qed.

(** No condition of a hygienic entry is reported in the words of a
    default route. *)
Lemma dangling_not_checkConditions name event :
  quoteFree eventName = true -> quoteFree name = true ->
  issue ∉ checkConditions validPaths name event.
Proof.
  intros Hq Hq'. unfold checkConditions.
  destruct (route event) as [r|]; [|apply not_elem_of_nil].
  destruct (conditions r) as [conds|]; [|apply not_elem_of_nil].
  apply not_elem_of_concat_imap. intros i cond. unfold checkCondition.
  apply not_elem_of_app. split; [|unfold issue, danglingRoute; issue_absent].
  destruct (target cond) as [t|]; [|apply not_elem_of_nil].
  destruct (_ && _); [|apply not_elem_of_nil].
  apply not_elem_of_cons. split; [|apply not_elem_of_nil].
  unfold issue, danglingRoute. intros [= H].
  apply quoteFree_split in H as [_ H]; [|done..]. discriminate H.
Qed.

(** Nor is the default route of an entry with another name. *)
Lemma dangling_not_checkRouteTo name event :
  quoteFree eventName = true -> quoteFree name = true -> name ≠ eventName ->
  issue ∉ checkRouteTo validPaths name event.
Proof.
  intros Hq Hq' Hne. unfold checkRouteTo.
  destruct (route event) as [r|]; [|apply not_elem_of_nil].
  destruct (to r) as [t|]; [|apply not_elem_of_nil].
  destruct (_ && _); [|apply not_elem_of_nil].
  apply not_elem_of_cons. split; [|apply not_elem_of_nil].
  unfold issue, danglingRoute. intros [= H].
  apply quoteFree_split in H as [H _]; [|done..]. congruence.
Qed.

Lemma dangling_not_checkEvent kv :
  quoteFree eventName = true -> quoteFree kv.1 = true -> kv.1 ≠ eventName ->
  issue ∉ checkEvent validPaths kv.
Proof.
  intros. unfold checkEvent. apply not_elem_of_app. split.
  - by apply dangling_not_checkRouteTo.
  - by apply dangling_not_checkConditions.
Qed.
End DanglingRoute.

(** C6.  Validator soundness.  For a routing entry whose [route.to] names
    no page path, the check of that entry's default route reports exactly
    one issue: an error on [event_routing] whose message quotes the event
    name and the path.  The report of [validateConfig] holds it at the
    place of that entry, after the page checks and the earlier entries and
    before the entry's conditions, the later entries and the other checks.
    When the event names hold no double quote the issue occurs exactly once
    in the whole report.  [validateConfig] is a total function of the
    configuration. *)
Theorem validator_flags_dangling_route (config : FunnelConfig)
    (before after : list (string * EventLogic))
    (eventName : string) (event : EventLogic) (r : Route) (missing : string) :
  let ps := pages config in
  let validPaths := validPathsOf ps in
  let issue := danglingRoute eventName missing in
  event_routing config = before ++ (eventName, event) :: after ->
  route event = Some r ->
  to r = Some missing ->
  missing ≠ EmptyString ->
  missing ∉ path <$> values ps ->
  checkRouteTo validPaths eventName event = [issue] ∧
  issue_type issue = SevError ∧
  issue_message issue =
    "Event " +:+ dq +:+ eventName +:+ dq +:+ " routes to non-existent path: " +:+
    dq +:+ missing +:+ dq ∧
  validateConfig config =
    (flat_map checkPath ps ++ checkSequence ps ++
     flat_map (checkTemplate (templates config)) ps ++
     flat_map (checkEvent validPaths) before) ++
    issue ::
    (checkConditions validPaths eventName event ++
     flat_map (checkEvent validPaths) after ++
     flat_map (checkEventRefs (event_routing config)) ps ++
     flat_map checkContent ps ++ checkTheme (theme config) ++ checkPreview ps) ∧
  (NoDup (keys (event_routing config)) ->
   Forall (fun n => quoteFree n = true) (keys (event_routing config)) ->
   occurrences issue (validateConfig config) = 1%nat).
Proof.
  intros ps validPaths issue Hrouting Hr Hto Hne Hmissing.
  assert (checkRouteTo validPaths eventName event = [issue]) as Hcheck.
  { unfold checkRouteTo. rewrite Hr, Hto. destruct missing as [|c m]; [done|]. simpl.
    rewrite bool_decide_eq_false_2; [done|].
    unfold validPaths, validPathsOf. by rewrite elem_of_list_to_set. }
  assert (validateConfig config =
    (flat_map checkPath ps ++ checkSequence ps ++
     flat_map (checkTemplate (templates config)) ps ++
     flat_map (checkEvent validPaths) before) ++
    issue ::
    (checkConditions validPaths eventName event ++
     flat_map (checkEvent validPaths) after ++
     flat_map (checkEventRefs (event_routing config)) ps ++
     flat_map checkContent ps ++ checkTheme (theme config) ++ checkPreview ps)) as Hreport.
  { unfold validateConfig. fold ps. fold validPaths.
    rewrite Hrouting at 1. rewrite flat_map_app. simpl.
    unfold checkEvent at 2. simpl. rewrite Hcheck.
    rewrite <- !app_assoc. reflexivity. }
  split_and!; [done..|].
  intros Hnd Hq. rewrite Hreport. rewrite Hrouting in Hnd, Hq.
  unfold keys in Hnd, Hq. rewrite fmap_app, fmap_cons in Hnd, Hq. simpl in Hnd, Hq.
  apply NoDup_app in Hnd as (_ & Hbefore & Hnd). apply NoDup_cons in Hnd as [Hafter _].
  apply Forall_app in Hq as [Hqb Hq]. apply Forall_cons in Hq as [Hqn Hqa].
  assert (∀ l : list (string * EventLogic),
            Forall (fun n => quoteFree n = true) l.*1 ->
            (∀ kv, kv ∈ l -> kv.1 ≠ eventName) ->
            issue ∉ flat_map (checkEvent validPaths) l) as Hothers.
  { intros l Hl Hdiff. apply not_elem_of_flat_map. intros kv Hkv.
    apply dangling_not_checkEvent; [done| |by apply Hdiff].
    rewrite Forall_forall in Hl. apply Hl. apply list_elem_of_fmap. by exists kv. }
  apply occurrences_middle.
  - rewrite !not_elem_of_app. split_and!.
    + apply not_elem_of_flat_map. intros kv _. apply dangling_not_checkPath.
    + apply dangling_not_checkSequence.
    + apply not_elem_of_flat_map. intros kv _. apply dangling_not_checkTemplate.
    + apply Hothers; [done|]. intros kv Hkv Heq. apply (Hbefore eventName).
      * rewrite <- Heq. apply list_elem_of_fmap. by exists kv.
      * left.
  - rewrite !not_elem_of_app. split_and!.
    + by apply dangling_not_checkConditions.
    + apply Hothers; [done|]. intros kv Hkv Heq. apply Hafter. rewrite <- Heq.
      apply list_elem_of_fmap. by exists kv.
    + apply not_elem_of_flat_map. intros kv _. apply dangling_not_checkEventRefs.
    + apply not_elem_of_flat_map. intros kv _. apply dangling_not_checkContent.
    + apply dangling_not_checkTheme.
    + apply dangling_not_checkPreview.
Qed.

(** A funnel of four pages whose second routing entry goes to path 9 and
    carries a condition that targets path 7. *)
Lemma validator_flags_dangling_route_witness :
  let entry :=
    mkEvent (Some (mkRoute (Some "9")
       (Some [mkCondition (Some "age") (Some "7") []]))) [] in
  let config :=
    Sample.funnel Sample.fourPages
      [("quiz_done", Sample.goTo "4"); ("offer_seen", entry);
       ("skip", Sample.goTo "2")] in
  let issue :=
    mkIssue SevError "event_routing"
      ("Event " +:+ dq +:+ "offer_seen" +:+ dq +:+
       " routes to non-existent path: " +:+ dq +:+ "9" +:+ dq) None in
  ("9" ∉ path <$> values (pages config)) ∧
  issue ∈ validateConfig config ∧
  occurrences issue (validateConfig config) = 1%nat.
Proof.
  intros entry config issue.
  destruct (validator_flags_dangling_route config
              [("quiz_done", Sample.goTo "4")] [("skip", Sample.goTo "2")]
              "offer_seen" entry
              (mkRoute (Some "9") (Some [mkCondition (Some "age") (Some "7") []]))
              "9")
    as (_ & _ & _ & Hreport & Hone);
    [reflexivity | reflexivity | reflexivity | done | compute_done |].
  split; [compute_done|]. split.
  - rewrite Hreport. apply elem_of_app. right. left.
  - apply Hone; [compute_done|]. repeat constructor.
Defined.

(** ** Import *)

Section DictUpdate.
Context {A : Type}.
Implicit Types (d : list (string * A)) (k : string).

Lemma lookupKey_setKey_eq k (v : A) d : lookupKey k (setKey k v d) = Some v.
Proof.
  induction d as [|[k' v'] d IH]; simpl.
  - by rewrite decide_True.
  - destruct (decide (k' = k)) as [->|Hne]; simpl.
    + by rewrite decide_True.
    + by rewrite decide_False.
Qed.

Lemma lookupKey_setKey_ne k k' (v : A) d :
  k ≠ k' -> lookupKey k' (setKey k v d) = lookupKey k' d.
Proof.
  intros Hne. induction d as [|[k0 v0] d IH]; simpl.
  - by rewrite decide_False.
  - destruct (decide (k0 = k)) as [->|Hne0]; simpl.
    + by rewrite !decide_False.
    + destruct (decide (k0 = k')); [done|]. apply IH.
Qed.
End DictUpdate.

Lemma isObject_setProp k x v : isObject (setProp k x v) = isObject v.
Proof. by destruct v. Qed.

Lemma getProp_setProp_eq k x v : isObject v = true -> getProp k (setProp k x v) = Some x.
Proof. destruct v; try done; intros _; simpl; apply lookupKey_setKey_eq. Qed.

Lemma getProp_setProp_ne k k' x v : k ≠ k' -> getProp k' (setProp k x v) = getProp k' v.
Proof. intros H. destruct v; try done; simpl; by apply lookupKey_setKey_ne. Qed.

Lemma getProp_isObject k v x : getProp k v = Some x -> isObject v = true.
Proof. by destruct v. Qed.

Lemma isObject_ensureProp k dflt v : isObject (ensureProp k dflt v) = isObject v.
Proof.
  unfold ensureProp. destruct (getProp k v) as [x|]; [destruct (jsTruthy x)|];
    auto using isObject_setProp.
Qed.

Lemma getProp_ensureProp_eq k dflt v :
  isObject v = true -> getProp k (ensureProp k dflt v) = Some (ensured dflt (getProp k v)).
Proof.
  intros Hobj. unfold ensureProp, ensured.
  destruct (getProp k v) as [x|] eqn:E; [destruct (jsTruthy x)|];
    auto using getProp_setProp_eq.
Qed.

Lemma getProp_ensureProp_ne k k' dflt v :
  k ≠ k' -> getProp k' (ensureProp k dflt v) = getProp k' v.
Proof.
  intros Hne. unfold ensureProp.
  destruct (getProp k v) as [x|]; [destruct (jsTruthy x)|];
    auto using getProp_setProp_ne.
Qed.

Lemma ensured_truthy dflt old : jsTruthy dflt = true -> jsTruthy (ensured dflt old) = true.
Proof. intros H. unfold ensured. destruct old as [x|]; [destruct (jsTruthy x) eqn:E|]; done. Qed.

Lemma ensured_again dflt old :
  jsTruthy dflt = true -> ensured dflt (Some (ensured dflt old)) = ensured dflt old.
Proof. intros H. unfold ensured at 1. by rewrite ensured_truthy. Qed.

Lemma ensure_all (sections : list string) (dflt t : json) (k : string) :
  isObject t = true -> jsTruthy dflt = true ->
  getProp k (fold_left (fun t k => ensureProp k dflt t) sections t) =
    if decide (k ∈ sections) then Some (ensured dflt (getProp k t)) else getProp k t.
Proof.
  intros Hobj Hd. revert t Hobj. induction sections as [|k0 l IH]; intros t Hobj; simpl.
  - first [done | destruct (decide (k ∈ [])) as [H|_]; [by apply elem_of_nil in H|done]].
  - rewrite IH by (by rewrite isObject_ensureProp).
    destruct (decide (k0 = k)) as [->|Hne].
    + rewrite getProp_ensureProp_eq by done.
      destruct (decide (k ∈ k :: l)) as [_|Hnin]; [|by destruct Hnin; left].
      case_decide; [by rewrite ensured_again|done].
    + rewrite getProp_ensureProp_ne by done.
      destruct (decide (k ∈ l)) as [Hin|Hnin];
        destruct (decide (k ∈ k0 :: l)) as [Hin'|Hnin']; try done.
      * destruct Hnin'. by right.
      * apply elem_of_cons in Hin' as [->|?]; done.
Qed.

Lemma missingSection_false k doc : missingSection k doc = false <-> hasSection k doc.
Proof.
  unfold missingSection, hasSection. split.
  - destruct (getProp k doc) as [v|]; [|done]. intros H.
    apply orb_false_elim in H as [H1 H2]. exists v.
    apply negb_false_iff in H1, H2. done.
  - intros (v & -> & -> & ->). done.
Qed.

Lemma missingSection_true k doc : missingSection k doc = true <-> ¬ hasSection k doc.
Proof.
  rewrite <- missingSection_false. by destruct (missingSection k doc).
Qed.

Lemma backfill_props (doc t : json) :
  getProp "theme" doc = Some t -> isObject t = true ->
  getProp "theme" (backfill doc) = Some (backfillTheme t) ∧
  getProp "layout" (backfill doc) = Some (ensured defaultLayout (getProp "layout" doc)) ∧
  (∀ k, k ≠ "theme" -> k ≠ "layout" -> getProp k (backfill doc) = getProp k doc) ∧
  (∀ k, getProp k (backfillTheme t) =
        if decide (k ∈ themeSections)
        then Some (ensured emptyObject (getProp k t)) else getProp k t).
Proof.
  intros Ht Hobj. pose proof (getProp_isObject _ _ _ Ht) as Hdoc.
  unfold backfill. rewrite Ht. split_and!.
  - rewrite getProp_ensureProp_ne by done. by apply getProp_setProp_eq.
  - rewrite getProp_ensureProp_eq by (by rewrite isObject_setProp).
    by rewrite getProp_setProp_ne.
  - intros k H1 H2. rewrite getProp_ensureProp_ne by done. by rewrite getProp_setProp_ne.
  - intros k. by apply ensure_all.
Qed.

(** C7.  Import.  A file that does not parse, and a document without an
    object under [pages], [theme] or [templates], is refused: the toast
    shows an error and the graph, the history and the active page stay as
    they were.  Any other document becomes the graph, after its backfill:
    each of the six theme sub-sections and the layout is kept when it was
    there and is an empty default otherwise, every other property is the
    document's own, and the history starts empty.  The toast then reports
    the load, unless the name or the version of the document cannot be
    shown as a string: the graph is the document all the same, under the
    toast of a parse error. *)
Theorem loadConfig_rejects_or_backfills (jsToString : json -> option string)
    (fileName : string) (parsed : option json) (s : Store json) :
  let s' := loadConfig jsToString fileName parsed s in
  ((parsed = None ∨
    ∃ doc, parsed = Some doc ∧
      (¬ hasSection "pages" doc ∨ ¬ hasSection "theme" doc ∨ ¬ hasSection "templates" doc)) ->
   config s' = config s ∧ history s' = history s ∧ activePageId s' = activePageId s ∧
   ∃ msg, notification s' = Some (mkNotification msg ToastError)) ∧
  (∀ doc, parsed = Some doc ->
     hasSection "pages" doc -> hasSection "theme" doc -> hasSection "templates" doc ->
     config s' = backfill doc ∧
     history s' = mkHistory [] [] ∧
     notification s' =
       Some (match loadedMessage jsToString fileName (backfill doc) with
             | Some msg => mkNotification msg ToastSuccess
             | None => mkNotification "Error parsing JSON file. Check the file format."
                         ToastError
             end) ∧
     (∀ k, k ≠ "theme" -> k ≠ "layout" -> getProp k (config s') = getProp k doc) ∧
     (∃ t t', getProp "theme" doc = Some t ∧ getProp "theme" (config s') = Some t' ∧
        ∀ k, getProp k t' =
             if decide (k ∈ themeSections)
             then Some (ensured emptyObject (getProp k t)) else getProp k t) ∧
     getProp "layout" (config s') = Some (ensured defaultLayout (getProp "layout" doc))).
Proof.
  intros s'. subst s'. split.
  - intros [-> | (doc & -> & Hmiss)]; simpl.
    + split_and!; try done. by eexists.
    + assert (∀ msg, let s' := notify msg ToastError s in
                config s' = config s ∧ history s' = history s ∧
                activePageId s' = activePageId s ∧
                ∃ m, notification s' = Some (mkNotification m ToastError)) as Hrej
        by (intros msg; simpl; split_and!; try done; by eexists).
      destruct (missingSection "pages" doc) eqn:E1;
        [destruct doc; apply Hrej|].
      destruct (missingSection "theme" doc) eqn:E2;
        [destruct doc; apply Hrej|].
      destruct (missingSection "templates" doc) eqn:E3;
        [destruct doc; apply Hrej|].
      apply missingSection_false in E1, E2, E3.
      destruct Hmiss as [H|[H|H]]; by destruct H.
  - intros doc -> Hp Ht Hm.
    pose proof (proj2 (missingSection_false _ _) Hp) as E1.
    pose proof (proj2 (missingSection_false _ _) Ht) as E2.
    pose proof (proj2 (missingSection_false _ _) Hm) as E3.
    destruct Ht as (t & Ht & _ & Hobj).
    destruct (backfill_props doc t Ht Hobj) as (Btheme & Blayout & Bother & Bsections).
    set (toast := match loadedMessage jsToString fileName (backfill doc) with
                  | Some msg => mkNotification msg ToastSuccess
                  | None => mkNotification "Error parsing JSON file. Check the file format."
                              ToastError
                  end).
    assert (∃ active,
              loadConfig jsToString fileName (Some doc) s =
              mkStore (backfill doc) (mkHistory [] []) active (Some toast)) as [active ->].
    { unfold loadConfig, toast. rewrite E1, E2, E3.
      assert (doc ≠ JNull) as Hdoc by (by intros ->).
      destruct doc; try done;
        (destruct (getProp "pages" (backfill _) ≫= firstKey) as [k|];
           [destruct (nonEmpty k)|];
         destruct (loadedMessage jsToString fileName (backfill _)); by eexists). }
    cbn [config history notification]. split_and!; try done.
    by exists t, (backfillTheme t).
Qed.

(** A document with a partial theme and no layout is loaded with the gaps
    filled; a document without a theme is refused; a document whose name
    cannot be shown is loaded under the toast of a parse error. *)
Lemma loadConfig_rejects_or_backfills_witness :
  let s := mkStore SampleImport.current (mkHistory [JNull] []) "intro" None in
  let loaded := loadConfig SampleImport.display "funnel.json" (Some SampleImport.partial) s in
  let refused := loadConfig SampleImport.display "funnel.json" (Some SampleImport.themeless) s in
  let silent := loadConfig SampleImport.display "funnel.json" (Some SampleImport.unnamed) s in
  hasSection "theme" SampleImport.partial ∧
  ¬ hasSection "theme" SampleImport.themeless ∧
  getProp "layout" (config loaded) = Some defaultLayout ∧
  (getProp "theme" (config loaded) ≫= getProp "fonts") = Some emptyObject ∧
  (getProp "theme" (config loaded) ≫= getProp "colors")
    = Some (JObj [("primary", JStr "#ff0000")]) ∧
  history loaded = mkHistory [] [] ∧
  notification loaded
    = Some (mkNotification "Config loaded: Quiz (v?)" ToastSuccess) ∧
  config refused = SampleImport.current ∧
  history refused = mkHistory [JNull] [] ∧
  notification refused
    = Some (mkNotification "Invalid config: missing 'theme' object." ToastError) ∧
  config silent = backfill SampleImport.unnamed ∧
  notification silent
    = Some (mkNotification "Error parsing JSON file. Check the file format." ToastError).
Proof.
  intros s loaded refused silent.
  assert (∀ doc k, missingSection k doc = false -> hasSection k doc) as Hhas
    by (intros doc k; apply missingSection_false).
  assert (¬ hasSection "theme" SampleImport.themeless) as Hno
    by (apply missingSection_true; reflexivity).
  destruct (loadConfig_rejects_or_backfills SampleImport.display "funnel.json"
              (Some SampleImport.partial) s) as [_ Hacc].
  destruct (Hacc SampleImport.partial eq_refl) as (Hc & Hh & Hn & _ & _ & Hl);
    [apply Hhas; reflexivity..|].
  destruct (loadConfig_rejects_or_backfills SampleImport.display "funnel.json"
              (Some SampleImport.themeless) s) as [Hrej _].
  destruct Hrej as (Hrc & Hrh & _ & _); [right; exists SampleImport.themeless; auto|].
  destruct (loadConfig_rejects_or_backfills SampleImport.display "funnel.json"
              (Some SampleImport.unnamed) s) as [_ Hsilent].
  destruct (Hsilent SampleImport.unnamed eq_refl) as (Hsc & _ & Hsn & _);
    [apply Hhas; reflexivity..|].
  split_and!.
  - apply Hhas. reflexivity.
  - exact Hno.
  - exact Hl.
  - fold loaded in Hc. rewrite Hc. reflexivity.
  - fold loaded in Hc. rewrite Hc. reflexivity.
  - exact Hh.
  - fold loaded in Hn. rewrite Hn. reflexivity.
  - exact Hrc.
  - exact Hrh.
  - reflexivity.
  - exact Hsc.
  - fold silent in Hsn. rewrite Hsn. reflexivity.
Defined.

(** ** Rendering engine *)

Section RendererFacts.
Variables (registry : list string) (data : list (string * json)) (theme : ThemeConfig).

Let render := RecursiveRenderer registry data theme.

Lemma render_unknown node k :
  nodeName node = Some k -> k ∉ registry -> render node = RUnknown k.
Proof.
  subst render. destruct node as [type component props children]. simpl. intros -> Hk.
  by rewrite bool_decide_eq_false_2.
Qed.

Lemma render_container node k i child :
  nodeName node = Some k -> k ∈ registry -> childNodes node !! i = Some child ->
  ∃ props, render node = RElement k props theme (RenderedNodes (map render (childNodes node))).
Proof.
  subst render. destruct node as [type component props children]. simpl.
  intros -> Hk Hchild. rewrite bool_decide_eq_true_2 by done.
  destruct children as [[nodes|key]|]; [by eexists|done..].
Qed.

(** The output mirrors the tree wherever the walker gets to. *)
Lemma render_at (p : list nat) root node :
  reached registry p root = true -> nodeAt p root = Some node ->
  renderedAt p (render root) = Some (render node).
Proof.
  revert root. induction p as [|i p IH]; intros root Hreach Hat; simpl in *.
  - by injection Hat as ->.
  - destruct (nodeName root) as [k|] eqn:Ek; [|done].
    destruct (childNodes root !! i) as [child|] eqn:Ec; [|done].
    apply andb_prop in Hreach as [Hk Hreach]. apply bool_decide_eq_true in Hk.
    destruct (render_container root k i child Ek Hk Ec) as [props ->].
    change (map render (childNodes root)) with (render <$> childNodes root).
    rewrite list_lookup_fmap, Ec. simpl in *. by apply IH.
Qed.
End RendererFacts.

(** What React mounts mirrors the tree along the containers. *)
Lemma mounted_at (registry containers : list string)
    (data : list (string * json)) (theme : ThemeConfig)
    (p : list nat) (root node : ComponentNode) :
  throughContainers registry containers p root = true -> nodeAt p root = Some node ->
  mountedAt containers p (RecursiveRenderer registry data theme root)
    = Some (RecursiveRenderer registry data theme node).
Proof.
  revert root. induction p as [|i p IH]; intros root Hreach Hat; simpl in *.
  - by injection Hat as ->.
  - destruct (nodeName root) as [k|] eqn:Ek; [|done].
    destruct (childNodes root !! i) as [child|] eqn:Ec; [|done].
    apply andb_prop in Hreach as [Hk Hreach]. apply andb_prop in Hk as [Hk Hc].
    apply bool_decide_eq_true in Hk.
    destruct (render_container registry data theme root k i child Ek Hk Ec) as [props ->].
    rewrite Hc.
    change (map ?f (childNodes root)) with (f <$> childNodes root).
    rewrite list_lookup_fmap, Ec. simpl. by apply IH.
Qed.

(** Nothing else is mounted. *)
Lemma mounted_only (registry containers : list string)
    (data : list (string * json)) (theme : ThemeConfig)
    (p : list nat) (root : ComponentNode) (r : Rendered) :
  mountedAt containers p (RecursiveRenderer registry data theme root) = Some r ->
  throughContainers registry containers p root = true ∧
  ∃ node, nodeAt p root = Some node ∧ r = RecursiveRenderer registry data theme node.
Proof.
  revert root. induction p as [|i p IH]; intros root Hr.
  - simpl in Hr. injection Hr as <-. split; [done|]. by exists root.
  - destruct root as [type component props children]. simpl in Hr.
    destruct (componentNameOf type component) as [k|] eqn:Ek; [|done].
    destruct (bool_decide (k ∈ registry)) eqn:Hk; [|done].
    destruct children as [[nodes|key]|]; simpl in Hr;
      [|by destruct (nonEmpty key)|done].
    destruct (bool_decide (k ∈ containers)) eqn:Hc; [|done].
    change (map ?f nodes) with (f <$> nodes) in Hr.
    rewrite list_lookup_fmap in Hr.
    destruct (nodes !! i) as [child|] eqn:Ec; [|done]. simpl in Hr.
    destruct (IH child Hr) as (Hreach & node & Hat & Hrender).
    simpl. rewrite Ek, Ec, Hk, Hc. simpl. split; [done|]. by exists node.
Qed.

(** C9, as the specification states it, fails three times over.  An
    unregistered kind inside an unregistered kind gets no placeholder: the
    placeholder of the outer node stands for the whole subtree.  A tree
    whose root has neither [component] nor [type] renders to nothing at
    all, whatever it contains.  And the placeholder of an unregistered
    kind under a registered component that does not mount its children,
    such as a button, is never shown: the element of the node is handed
    to the button, which drops it, and the walker is not run on it. *)
Lemma rendering_totality_counterexample :
  let render := RecursiveRenderer registeredNames [] Sample.emptyTheme in
  (nodeAt [0%nat] SampleTree.nested = Some (SampleTree.leaf "Sparkline") ∧
   ("Sparkline" ∉ registeredNames) ∧
   render SampleTree.nested = RUnknown "Tabs" ∧
   renderedAt [0%nat] (render SampleTree.nested) = None) ∧
  (nodeAt [0%nat] SampleTree.nameless = Some (SampleTree.leaf "Sparkline") ∧
   render SampleTree.nameless = RNull) ∧
  (nodeAt [0%nat; 0%nat] SampleTree.underButton = Some (SampleTree.leaf "Sparkline") ∧
   renderedAt [0%nat; 0%nat] (render SampleTree.underButton)
     = Some (RUnknown "Sparkline") ∧
   mountedAt CONTAINERS [0%nat; 0%nat] (render SampleTree.underButton) = None) ∧
  ¬ totalForUnknownKinds registeredNames.
Proof.
  intros render.
  assert ("Sparkline" ∉ registeredNames) as Hout by compute_done.
  split_and!; try reflexivity; [done|].
  intros Htotal.
  destruct (Htotal [] Sample.emptyTheme SampleTree.nameless [0%nat]
              (SampleTree.leaf "Sparkline") "Sparkline" eq_refl eq_refl Hout) as [H _].
  by apply H.
Qed.

(** C9, amended.  The walker is total and returns an element for every
    node it gets to, that is every node whose proper ancestors all have
    registered names: a node with a name outside the registry gets the
    "Unknown" placeholder that shows the name, a node with a registered
    name the element of its component, with one element per child node.
    What React mounts of these elements is what lies under containers,
    the components that return their children: the placeholder of an
    unknown node is mounted exactly when every proper ancestor of the
    node is a registered container, and so is the element of any other
    node.  The children of every other component, and of an unknown
    node, are not mounted. *)
Theorem rendering_totality (registry containers : list string)
    (data : list (string * json)) (theme : ThemeConfig) (root : ComponentNode) :
  let render := RecursiveRenderer registry data theme in
  (∀ k, nodeName root = Some k -> render root ≠ RNull) ∧
  (∀ p node k,
     reached registry p root = true -> nodeAt p root = Some node ->
     nodeName node = Some k -> k ∉ registry ->
     renderedAt p (render root) = Some (RUnknown k)) ∧
  (∀ p node,
     reached registry p root = true -> nodeAt p root = Some node ->
     renderedAt p (render root) = Some (render node)) ∧
  (∀ p node k (i : nat) child,
     reached registry p root = true -> nodeAt p root = Some node ->
     nodeName node = Some k -> k ∈ registry -> childNodes node !! i = Some child ->
     ∃ props,
       renderedAt p (render root) =
       Some (RElement k props theme (RenderedNodes (map render (childNodes node))))) ∧
  (∀ p node,
     throughContainers registry containers p root = true -> nodeAt p root = Some node ->
     mountedAt containers p (render root) = Some (render node) ∧
     ∀ k, nodeName node = Some k -> k ∉ registry ->
          mountedAt containers p (render root) = Some (RUnknown k)) ∧
  (∀ p r,
     mountedAt containers p (render root) = Some r ->
     throughContainers registry containers p root = true ∧
     ∃ node, nodeAt p root = Some node ∧ r = render node) ∧
  (∀ p,
     throughContainers registry containers p root = false ->
     mountedAt containers p (render root) = None).
Proof.
  intros render. split_and!.
  - intros k Hk. destruct root as [type component props children]. simpl in *.
    subst render. simpl. rewrite Hk. by destruct (bool_decide _).
  - intros p node k Hreach Hat Hk Hun. subst render.
    rewrite (render_at registry data theme p root node Hreach Hat).
    f_equal. by apply render_unknown.
  - intros p node. apply render_at.
  - intros p node k i child Hreach Hat Hk Hin Hchild. subst render.
    rewrite (render_at registry data theme p root node Hreach Hat).
    destruct (render_container registry data theme node k i child Hk Hin Hchild) as [props ->].
    by exists props.
  - intros p node Hreach Hat. subst render.
    rewrite (mounted_at registry containers data theme p root node Hreach Hat).
    split; [done|]. intros k Hk Hun. f_equal. by apply render_unknown.
  - intros p r. apply mounted_only.
  - intros p Hout. subst render.
    destruct (mountedAt containers p (RecursiveRenderer registry data theme root))
      as [r|] eqn:E; [|done].
    apply mounted_only in E as [E _]. congruence.
Qed.

(** A page with a title, a node of unknown kind and a button: the page and
    the two known children are rendered, the stranger is a placeholder,
    and it is mounted, the page being a container. *)
Lemma rendering_totality_witness :
  let render := RecursiveRenderer registeredNames
                  [("_title_text", JStr "Welcome")] Sample.emptyTheme in
  render SampleTree.withStranger =
    RElement "Page" [] Sample.emptyTheme
      (RenderedNodes
         [RElement "Title" [("text", JStr "Welcome")] Sample.emptyTheme NoChildren;
          RUnknown "Sparkline";
          RElement "Button" [] Sample.emptyTheme NoChildren]) ∧
  renderedAt [1%nat] (render SampleTree.withStranger) = Some (RUnknown "Sparkline") ∧
  mountedAt CONTAINERS [1%nat] (render SampleTree.withStranger)
    = Some (RUnknown "Sparkline").
Proof.
  intros render. split; [reflexivity|].
  destruct (rendering_totality registeredNames CONTAINERS [("_title_text", JStr "Welcome")]
              Sample.emptyTheme SampleTree.withStranger) as (_ & H & _ & _ & Hm & _).
  split.
  - apply (H [1%nat] (SampleTree.leaf "Sparkline") "Sparkline");
      [reflexivity | reflexivity | reflexivity | compute_done].
  - destruct (Hm [1%nat] (SampleTree.leaf "Sparkline")) as [_ Hshown];
      [reflexivity | reflexivity |].
    apply (Hshown "Sparkline"); [reflexivity | compute_done].
Defined.

(** * Further properties of the provider *)

(** ** Reindexing and the validator's path check *)

Lemma withPath_withPath page p q : withPath (withPath page p) q = withPath page q.
Proof. reflexivity. Qed.


Lemma parseInt10_decimal (s : string) :
  s ≠ EmptyString -> allDecimal s = true -> parseInt10 s = Some (parseDigits 10 0 s).
Proof.
  assert (∀ c, isDecimalDigit c = true ->
            c = "0" ∨ c = "1" ∨ c = "2" ∨ c = "3" ∨ c = "4" ∨
            c = "5" ∨ c = "6" ∨ c = "7" ∨ c = "8" ∨ c = "9")%char as Hdigit.
  { intros [[] [] [] [] [] [] [] []] H; try discriminate H;
      repeat first [left; reflexivity | right; try reflexivity]. }
  destruct s as [|c1 s]; [done|]. intros _ H. simpl in H.
  apply andb_prop in H as [H1 _]. apply Hdigit in H1.
  decompose [or] H1; subst; cbv -[parseDigits Z.mul]; f_equal; apply Z.mul_1_l.
Qed.

Lemma parseInt10_indexToPath (i : nat) : parseInt10 (indexToPath i) = Some (Z.of_nat (S i)).
Proof.
  unfold indexToPath, pretty, pretty_nat, pretty, pretty_N.
  case_decide as Hx; [lia|]. rewrite parseInt10_decimal.
  - rewrite parseDigits_pretty_N_go. reflexivity.
  - rewrite pretty_N_go_step by lia. by apply pretty_N_go_nonempty.
  - by apply pretty_N_go_decimal.
Qed.

Lemma expectedPaths_length (n : nat) : length (expectedPaths n) = n.
Proof. unfold expectedPaths. by rewrite length_fmap, length_seq. Qed.

Lemma expectedPaths_sorted_from (a n : nat) :
  Sorted Z.le ((fun i : nat => Z.of_nat (S i)) <$> seq a n).
Proof.
  revert a. induction n as [|n IH]; intros a; simpl; [constructor|].
  constructor; [apply IH|]. destruct n; simpl; constructor. lia.
Qed.

Lemma numericPaths_length_le ps : (length (numericPaths ps) <= length ps)%nat.
Proof.
  unfold numericPaths, omap. induction ps as [|kv ps IH]; simpl; [done|].
  destruct (nonEmpty (path kv.2)); [destruct (parseInt10 (path kv.2))|]; simpl; lia.
Qed.

Lemma numericPaths_sequential ps :
  pathsSequential ps -> numericPaths ps = expectedPaths (length ps).
Proof.
  intros Hseq. unfold numericPaths, expectedPaths. apply list_eq. intros i.
  rewrite list_lookup_fmap.
  destruct (ps !! i) as [kv|] eqn:E.
  - rewrite lookup_seq_lt by (by eapply lookup_lt_Some). simpl.
    assert (∀ (l : list (string * PageConfig)) (j : nat) kv',
              (∀ (m : nat) x, l !! m = Some x ->
                 (if nonEmpty (path x.2) then parseInt10 (path x.2) else None)
                 = Some (Z.of_nat (S (j + m)))) ->
              l !! i = Some kv' ->
              omap (fun kv => if nonEmpty (path kv.2) then parseInt10 (path kv.2) else None) l !! i
              = Some (Z.of_nat (S (j + i)))) as Haux.
    { clear. intros l. revert i. induction l as [|x l IH]; intros i j kv' Hall Hi; [done|].
      simpl. rewrite (Hall 0%nat x eq_refl). destruct i as [|i]; simpl.
      - by rewrite Nat.add_0_r.
      - replace (j + S i)%nat with (S j + i)%nat by lia. eapply IH; [|done].
        intros m y Hm. replace (S j + m)%nat with (j + S m)%nat by lia.
        by apply (Hall (S m)). }
    apply (Haux ps 0%nat kv); [|done]. intros m x Hm. simpl.
    rewrite (pathsSequential_lookup ps m x Hseq Hm).
    pose proof (indexToPath_nonempty m) as Hne.
    destruct (indexToPath m) eqn:Em; [done|]. simpl. rewrite <- Em.
    apply parseInt10_indexToPath.
  - rewrite lookup_seq_ge by (by apply lookup_ge_None).
    apply lookup_ge_None. etrans; [apply numericPaths_length_le|].
    by apply lookup_ge_None.
Qed.

Lemma checkSequence_nil_iff ps :
  checkSequence ps = [] <-> numericPaths ps ≡ₚ expectedPaths (length (numericPaths ps)).
Proof.
  unfold checkSequence. fold (expectedPaths (length (numericPaths ps))).
  case_decide as Heq; split; try done.
  - intros _. etrans; [symmetry; apply (merge_sort_Permutation Z.le)|]. by rewrite Heq.
  - intros Hperm. destruct Heq. apply (Sorted_unique Z.le).
    + apply (Sorted_merge_sort Z.le).
    + apply expectedPaths_sorted_from.
    + by rewrite merge_sort_Permutation.
Qed.

Lemma sequential_paths_checked (l : list (string * PageConfig)) :
  pathsSequential l -> flat_map checkPath l = [] ∧ checkSequence l = [].
Proof.
  intros Hseq. split.
  - assert (∀ kv, kv ∈ l -> checkPath kv = []) as Hall.
    { intros kv Hin. apply list_elem_of_lookup in Hin as [i Hi]. unfold checkPath.
      rewrite (pathsSequential_lookup l i kv Hseq Hi).
      pose proof (indexToPath_nonempty i) as Hne. rewrite parseInt10_indexToPath.
      by destruct (indexToPath i). }
    clear Hseq. induction l as [|kv l IH]; [done|]. simpl.
    rewrite (Hall kv) by left. apply IH. intros kv' ?. apply Hall. by right.
  - apply checkSequence_nil_iff. rewrite (numericPaths_sequential l Hseq).
    by rewrite expectedPaths_length.
Qed.



(** X3.  What the sequence check accepts: the numeric paths, in any order,
    are the numbers 1 .. n.  The check does not compare them with the order
    of the collection. *)
Theorem checkSequence_accepts_permutations (ps : list (string * PageConfig)) :
  checkSequence ps = [] <->
  numericPaths ps ≡ₚ (fun i : nat => Z.of_nat (S i)) <$> seq 0 (length (numericPaths ps)).
Proof.
  unfold checkSequence. fold (expectedPaths (length (numericPaths ps))).
  case_decide as Hsorted; split; try done.
  - intros _. rewrite <- Hsorted. symmetry. apply (merge_sort_Permutation Z.le).
  - intros Hperm. destruct Hsorted. apply (Sorted_unique Z.le).
    + apply (Sorted_merge_sort Z.le).
    + apply expectedPaths_sorted_from.
    + by rewrite merge_sort_Permutation.
Qed.

(** Two pages whose paths are swapped with respect to their order pass the
    sequence check. *)
Example checkSequence_swapped :
  checkSequence [("a", Sample.page "A" "2" []); ("b", Sample.page "B" "1" [])] = [].
Proof. reflexivity. Qed.

(** ** History: bound, eviction, undo and redo around a mutation *)

Section HistoryBound.
Context {G : Type}.
Implicit Types (s : Store G).

Lemma setConfig_bounded (f : G -> G) s :
  (length (past (history (setConfig f s))) <= MAX_HISTORY)%nat ∧
  future (history (setConfig f s)) = [].
Proof. simpl. rewrite sliceLast_length. split; [lia|done]. Qed.

Lemma undo_historySize s : historySize (undo s) = historySize s.
Proof.
  unfold historySize. destruct (past (history s)) as [|y l0] eqn:E using rev_ind.
  - by rewrite undo_empty, E.
  - rewrite (undo_snoc s l0 y E). simpl. rewrite length_app. simpl. lia.
Qed.

Lemma redo_historySize s : historySize (redo s) = historySize s.
Proof.
  unfold historySize, redo. destruct (future (history s)) as [|y l0] eqn:E; simpl.
  - by rewrite E.
  - rewrite length_app. simpl. lia.
Qed.

Lemma sliceLast_sliceLast_app {A} (n : nat) (l r : list A) :
  sliceLast n (sliceLast n l ++ r) = sliceLast n (l ++ r).
Proof.
  unfold sliceLast. rewrite !length_app, length_drop.
  destruct (decide (length l <= n)%nat) as [Hle|Hgt].
  - replace (length l - n)%nat with 0%nat by lia.
    by rewrite Nat.sub_0_r, drop_0.
  - replace (length l - (length l - n) + length r - n)%nat with (length r) by lia.
    replace (length l + length r - n)%nat
      with (length l - n + length r)%nat by lia.
    rewrite <- (drop_drop (l ++ r) (length r) (length l - n)).
    by rewrite (drop_app_le l r (length l - n)) by lia.
Qed.
End HistoryBound.

Section HistorySessions.
Context {G : Type}.
Implicit Types (s : Store G).

Lemma sliceLast_snoc {A} (n : nat) (l : list A) (x : A) :
  sliceLast (S n) (l ++ [x]) = sliceLast n l ++ [x].
Proof.
  unfold sliceLast. rewrite length_app. simpl.
  replace (length l + 1 - S n)%nat with (length l - n)%nat by lia.
  apply drop_app_le. lia.
Qed.

Lemma superseded_lookup (c : G) (updaters : list (G -> G)) (i : nat) :
  (i < length updaters)%nat ->
  superseded c updaters !! i = Some (latest c (take i updaters)).
Proof.
  revert c i. induction updaters as [|f fs IH]; intros c i Hi; simpl in *; [lia|].
  destruct i as [|i]; [done|]. simpl. apply IH. lia.
Qed.

Lemma mutate_past updaters s :
  (length (past (history s)) <= MAX_HISTORY)%nat ->
  past (history (mutate updaters s)) =
  sliceLast MAX_HISTORY (past (history s) ++ superseded (config s) updaters).
Proof.
  unfold mutate. revert s. induction updaters as [|f fs IH]; intros s Hlen; simpl.
  - rewrite app_nil_r. by rewrite sliceLast_short.
  - rewrite IH by (simpl; rewrite sliceLast_length; lia). simpl.
    rewrite sliceLast_sliceLast_app. by rewrite <- app_assoc.
Qed.

Lemma mutate_config updaters s : config (mutate updaters s) = latest (config s) updaters.
Proof.
  unfold mutate, latest. revert s. induction updaters as [|f fs IH]; intros s; [done|].
  simpl. by rewrite IH.
Qed.

Lemma latest_take_all (c : G) (updaters : list (G -> G)) :
  latest c (take (length updaters) updaters) = latest c updaters.
Proof. by rewrite firstn_all. Qed.

Lemma undo_iter_empty (n : nat) s : past (history s) = [] -> Nat.iter n undo s = s.
Proof. intros H. induction n as [|n IH]; [done|]. simpl. rewrite IH. by apply undo_empty. Qed.
End HistorySessions.

(** X4.  The history never holds more than [MAX_HISTORY] configurations:
    whatever the mutations, undos and redos, past and future together stay
    within the cap once they are within it. *)
Theorem history_stays_bounded {G : Type} (steps : list (HistoryStep G)) (s : Store G) :
  (historySize s <= MAX_HISTORY)%nat ->
  (historySize (runSteps steps s) <= MAX_HISTORY)%nat.
Proof.
  unfold runSteps. revert s. induction steps as [|step steps IH]; intros s Hs; [done|].
  simpl. apply IH. destruct step as [f| |]; simpl.
  - unfold historySize. destruct (setConfig_bounded f s) as [Hp Hf].
    rewrite Hf. change (length (@nil G)) with 0%nat. lia.
  - by rewrite undo_historySize.
  - by rewrite redo_historySize.
Qed.

(** Sixty mutations, then undos and redos, from an empty history. *)
Lemma history_stays_bounded_witness :
  let s := Sample.session "intro" (Sample.funnel Sample.fourPages Sample.fourRouting) in
  let steps := replicate 60 (Mutation (fun c : FunnelConfig => c)) ++
               [Undo; Undo; Redo; Mutation (fun c => c); Undo] in
  (historySize s <= MAX_HISTORY)%nat ∧
  (historySize (runSteps steps s) <= MAX_HISTORY)%nat.
Proof.
  intros s steps.
  assert (historySize s <= MAX_HISTORY)%nat as H by (vm_compute; lia).
  split; [exact H|]. exact (history_stays_bounded steps s H).
Defined.

(** X5.  The oldest entries are evicted first.  After [k] mutations from an
    empty history the past holds the last [MAX_HISTORY] superseded
    configurations, and undoing as far as it goes leads to the
    configuration that was current [min k MAX_HISTORY] mutations ago. *)
Theorem history_evicts_oldest {G : Type} (c0 : G) (active : string)
    (toast : option Notification) (updaters : list (G -> G)) (n : nat) :
  let k := length updaters in
  let s := mutate updaters (mkStore c0 (mkHistory [] []) active toast) in
  past (history s) = sliceLast MAX_HISTORY (superseded c0 updaters) ∧
  length (past (history s)) = (k `min` MAX_HISTORY)%nat ∧
  ((k `min` MAX_HISTORY <= n)%nat ->
   config (Nat.iter n undo s) = latest c0 (take (k - MAX_HISTORY) updaters)).
Proof.
  intros k s.
  assert (past (history s) = sliceLast MAX_HISTORY (superseded c0 updaters)) as Hp.
  { unfold s. rewrite mutate_past by (simpl; lia). done. }
  assert (length (past (history s)) = (k `min` MAX_HISTORY)%nat) as Hl.
  { by rewrite Hp, sliceLast_length, superseded_length. }
  split_and!; [done..|]. intros Hn.
  replace n with ((n - length (past (history s))) + length (past (history s)))%nat by lia.
  rewrite Nat.iter_add.
  destruct (undo_iter_config (past (history s)) s [] eq_refl) as [Hc Hk].
  rewrite undo_iter_empty by done. rewrite Hc.
  unfold s at 1. rewrite mutate_config. simpl.
  destruct (decide (k = 0)%nat) as [Hz|Hz].
  { destruct updaters; [|done]. by rewrite Hp. }
  rewrite Hp. unfold sliceLast. rewrite superseded_length. fold k.
  rewrite <- (latest_take_all c0 updaters).
  destruct (drop (k - MAX_HISTORY) (superseded c0 updaters)) as [|x l] eqn:E.
  - apply (f_equal length) in E. rewrite length_drop, superseded_length in E.
    simpl in E. fold k in E. unfold MAX_HISTORY in *. lia.
  - simpl. assert (superseded c0 updaters !! (k - MAX_HISTORY)%nat = Some x) as Hx.
    { rewrite <- (Nat.add_0_r (k - MAX_HISTORY)), <- lookup_drop, E. done. }
    rewrite superseded_lookup in Hx by (unfold MAX_HISTORY; lia). congruence.
Qed.

(** Sixty increments of a counter: all the undos that can be done lead
    back to 10, not to 0. *)
Lemma history_evicts_oldest_witness :
  let s := mutate (replicate 60 S) (mkStore 0%nat (mkHistory [] []) "intro" None) in
  (60 `min` MAX_HISTORY <= 60)%nat ∧
  length (past (history s)) = 50%nat ∧
  config (Nat.iter 60 undo s) = 10%nat.
Proof.
  intros s.
  destruct (history_evicts_oldest 0%nat "intro" None (replicate 60 S) 60) as (_ & Hl & Hc).
  split; [vm_compute; lia|]. split; [exact Hl|].
  apply Hc. vm_compute. lia.
Defined.

Lemma undo_redo_around_mutation_aux {G : Type} (f : G -> G) (s : Store G) :
  config (undo (setConfig f s)) = config s ∧
  ∃ l, past (history (setConfig f s)) = l ++ [config s].
Proof.
  assert (∃ l, past (history (setConfig f s)) = l ++ [config s]) as [l Hl].
  { simpl. unfold MAX_HISTORY. rewrite sliceLast_snoc. by eexists. }
  split; [|by eexists]. by rewrite (undo_snoc _ l (config s) Hl).
Qed.

(** X6.  Undo and redo around a mutation.  Undoing a mutation restores the
    graph it replaced, redoing gives back the store the mutation left, and
    a redo right after a mutation does nothing: the mutation has discarded
    what could be redone.  An undo takes back a redo. *)
Theorem undo_redo_around_mutation {G : Type} (f : G -> G) (s : Store G) :
  config (undo (setConfig f s)) = config s ∧
  redo (undo (setConfig f s)) = setConfig f s ∧
  redo (setConfig f s) = setConfig f s ∧
  canUndo (setConfig f s) = true ∧
  canRedo (setConfig f s) = false ∧
  (canRedo s = true -> undo (redo s) = s).
Proof.
  assert (∃ l, past (history (setConfig f s)) = l ++ [config s]) as [l Hl].
  { simpl. unfold MAX_HISTORY. rewrite sliceLast_snoc. by eexists. }
  split_and!.
  - by rewrite (undo_snoc _ l (config s) Hl).
  - apply redo_undo. rewrite Hl. by destruct l.
  - by apply redo_empty.
  - unfold canUndo. rewrite Hl, length_app. simpl. apply Nat.ltb_lt. lia.
  - reflexivity.
  - unfold canRedo, redo. destruct s as [c [p [|y fut]] a n]; simpl; [done|]. intros _.
    unfold undo. simpl. by rewrite last_snoc, dropLast_snoc.
Qed.

(** Undo after a page was added, and redo after an undo. *)
Lemma undo_redo_around_mutation_witness :
  let s := Sample.session "intro" (Sample.funnel Sample.fourPages Sample.fourRouting) in
  let s1 := addPage "offer" (Sample.page "Offer" "" []) s in
  canRedo (undo s1) = true ∧ undo (redo (undo s1)) = undo s1.
Proof.
  intros s s1.
  assert (canRedo (undo s1) = true) as H by reflexivity.
  split; [exact H|].
  exact (proj2 (proj2 (proj2 (proj2 (proj2
    (undo_redo_around_mutation (fun c : FunnelConfig => c) (undo s1)))))) H).
Defined.

(** ** What a migration keeps *)

Lemma migrateConditions_length pathMap conds :
  length (migrateConditions pathMap conds) = length conds.
Proof. unfold migrateConditions. apply length_map. Qed.

Lemma migrateConditions_empty conds : migrateConditions ∅ conds = conds.
Proof.
  unfold migrateConditions. induction conds as [|cond conds IH]; [done|]. simpl.
  rewrite IH. f_equal. destruct (target cond) as [t|]; [|done].
  destruct (nonEmpty t); [|done]. unfold mapped. by rewrite lookup_empty.
Qed.

Lemma migrateEvent_shape (oldPages newPages : list (string * PageConfig))
    (pathMap eventOwnerMap : gmap string string) eventName event :
  let event' := (migrateEvent oldPages newPages pathMap eventOwnerMap eventName event).1 in
  event_other event' = event_other event ∧
  (is_Some (route event') <-> is_Some (route event)) ∧
  (is_Some (route event' ≫= to) <-> is_Some (route event ≫= to)) ∧
  (length <$> (route event' ≫= conditions)) = (length <$> (route event ≫= conditions)).
Proof.
  unfold migrateEvent. destruct event as [[[t conds]|] other]; simpl; [|done].
  destruct t as [t|]; simpl; [|done].
  destruct (nonEmpty t); simpl; [|done].
  match goal with |- context [let '(_, _) := ?x in _] => destruct x end. simpl.
  split_and!; try done.
  destruct conds as [conds|]; simpl; [|done]. by rewrite migrateConditions_length.
Qed.

(** X7.  A migration keeps the shape of the routing table: the same event
    names in the same order, for each entry the same properties besides the
    route, a route exactly when there was one, and as many conditions.  An
    entry without a truthy [route.to] comes out as it went in. *)
Theorem migration_keeps_table_shape (oldPages newPages : list (string * PageConfig))
    (eventRouting : list (string * EventLogic)) :
  let migrated := routing (reindexEventRouting oldPages newPages eventRouting) in
  keys migrated = keys eventRouting ∧
  (∀ eventName,
     match lookupKey eventName eventRouting, lookupKey eventName migrated with
     | Some event, Some event' =>
         event_other event' = event_other event ∧
         (is_Some (route event') <-> is_Some (route event)) ∧
         (is_Some (route event' ≫= to) <-> is_Some (route event ≫= to)) ∧
         (length <$> (route event' ≫= conditions))
           = (length <$> (route event ≫= conditions)) ∧
         ((∀ r, route event = Some r -> truthy (to r) = false) -> event' = event)
     | None, None => True
     | _, _ => False
     end).
Proof.
  intros migrated. subst migrated. split.
  - rewrite reindexEventRouting_routing. unfold keys. rewrite <- list_fmap_compose.
    by apply list_fmap_ext.
  - intros eventName. rewrite migrated_lookup.
    destruct (lookupKey eventName eventRouting) as [event|]; simpl; [|done].
    destruct (migrateEvent_shape oldPages newPages (buildPathMap oldPages newPages)
                (buildEventOwnerMap oldPages eventRouting) eventName event)
      as (H1 & H2 & H3 & H4).
    split_and!; try done.
    intros Hno. by rewrite migrateEvent_without_route_to.
Qed.

(** ** Migrations that change nothing *)

Lemma lookupKey_NoDup_elem {A} (d : list (string * A)) k v :
  NoDup (keys d) -> (k, v) ∈ d -> lookupKey k d = Some v.
Proof.
  unfold keys. induction d as [|[k' v'] d IH]; intros Hnd Hin.
  - by apply elem_of_nil in Hin.
  - rewrite fmap_cons in Hnd. apply NoDup_cons in Hnd as [Hk Hnd]. simpl in *.
    apply elem_of_cons in Hin as [[= -> ->]|Hin].
    + by rewrite decide_True.
    + rewrite decide_False; [by apply IH|]. intros ->. apply Hk.
      apply list_elem_of_fmap. by exists (k, v).
Qed.

Lemma buildPathMap_unchanged (oldPages newPages : list (string * PageConfig)) :
  NoDup (keys oldPages) ->
  (∀ k page, lookupKey k oldPages = Some page -> lookupKey k newPages = Some page) ->
  buildPathMap oldPages newPages = ∅.
Proof.
  intros Hnd Hext. unfold buildPathMap.
  apply (fold_left_invariant (fun m : gmap string string => m = ∅)); [done|].
  intros m [k page] Hin ->. unfold recordPath. simpl.
  rewrite (Hext k page) by (by apply lookupKey_NoDup_elem).
  by rewrite decide_False by (by intros ?).
Qed.

Lemma migrateEvent_unchanged (oldPages newPages : list (string * PageConfig))
    (eventOwnerMap : gmap string string) eventName event :
  (∀ k page, lookupKey k oldPages = Some page -> lookupKey k newPages = Some page) ->
  (∀ r t, route event = Some r -> to r = Some t -> t ≠ EmptyString -> canonical t) ->
  ∃ kind, migrateEvent oldPages newPages ∅ eventOwnerMap eventName event = (event, kind) ∧
          kind ≠ Custom.
Proof.
  intros Hext Hcanon. unfold migrateEvent.
  destruct event as [[[t conds]|] other]; simpl in *; [|by exists Untouched].
  destruct t as [t|]; simpl; [|by exists Untouched].
  destruct (nonEmpty t) eqn:Hne; simpl; [|by exists Untouched].
  assert (canonical t) as Hc by (apply (Hcanon _ t eq_refl eq_refl); by destruct t).
  assert (conditions {| to := Some t; conditions := conds |} = conds) as _ by done.
  assert (migrateConditions ∅ <$> conds = conds) as ->
    by (destruct conds; simpl; [by rewrite migrateConditions_empty|done]).
  unfold mapped. rewrite lookup_empty.
  destruct (wasSequential (ownerPath (eventOwnerMap !! eventName) oldPages) t) eqn:Hseq;
    [|by exists Untouched; destruct (ownerPath (eventOwnerMap !! eventName) newPages)].
  unfold wasSequential in Hseq.
  destruct (ownerPath (eventOwnerMap !! eventName) oldPages) as [p|] eqn:Hold; [|done].
  assert (ownerPath (eventOwnerMap !! eventName) newPages = Some p) as ->.
  { unfold ownerPath in *. destruct (eventOwnerMap !! eventName) as [k|]; [|done].
    destruct (nonEmpty k); [|done].
    destruct (lookupKey k oldPages) as [page|] eqn:E; [|done].
    by rewrite (Hext k page E). }
  exists Sequential. split; [|done]. do 5 f_equal.
  unfold numEq in Hseq. destruct (parseInt t) as [x|] eqn:Ht; [|by simpl in Hseq].
  destruct (parseInt p) as [y|]; [|by simpl in Hseq]. simpl in *.
  apply Z.eqb_eq in Hseq. subst x. unfold canonical in Hc. rewrite Ht in Hc. exact Hc.
Qed.

Lemma migrateLoop_unchanged (oldPages newPages : list (string * PageConfig))
    (eventOwnerMap : gmap string string) (l : list (string * EventLogic)) (acc : Migration) :
  (∀ kv, kv ∈ l ->
     ∃ kind, migrateEvent oldPages newPages ∅ eventOwnerMap kv.1 kv.2 = (kv.2, kind) ∧
             kind ≠ Custom) ->
  let m := fold_left (fun acc kv =>
    let '(event, kind) :=
      migrateEvent oldPages newPages ∅ eventOwnerMap kv.1 kv.2 in
    {| routing := routing acc ++ [(kv.1, event)];
       sequentialCount :=
         match kind with Sequential => S (sequentialCount acc) | _ => sequentialCount acc end;
       customCount :=
         match kind with Custom => S (customCount acc) | _ => customCount acc end |})
    l acc in
  routing m = routing acc ++ l ∧ customCount m = customCount acc.
Proof.
  revert acc. induction l as [|[n e] l IH]; intros acc Hall; simpl.
  - by rewrite app_nil_r.
  - destruct (Hall (n, e)) as (kind & Hm & Hk); [left|]. simpl in Hm. rewrite Hm.
    destruct (IH {| routing := routing acc ++ [(n, e)];
                    sequentialCount :=
                      match kind with
                      | Sequential => S (sequentialCount acc) | _ => sequentialCount acc end;
                    customCount :=
                      match kind with
                      | Custom => S (customCount acc) | _ => customCount acc end |})
      as [Hr Hc]; [intros kv ?; apply Hall; by right|].
    simpl in *. rewrite Hr, Hc, <- app_assoc. split; [done|]. by destruct kind.
Qed.

Lemma migration_without_moves_is_identity_aux
    (oldPages newPages : list (string * PageConfig))
    (eventRouting : list (string * EventLogic)) :
  NoDup (keys oldPages) ->
  (∀ k page, lookupKey k oldPages = Some page -> lookupKey k newPages = Some page) ->
  canonicalRoutes eventRouting ->
  routing (reindexEventRouting oldPages newPages eventRouting) = eventRouting.
Proof.
  intros Hnd Hext Hcanon. unfold reindexEventRouting.
  rewrite (buildPathMap_unchanged oldPages newPages Hnd Hext).
  case_decide; [done|].
  apply (migrateLoop_unchanged oldPages newPages
           (buildEventOwnerMap oldPages eventRouting) eventRouting
           {| routing := []; sequentialCount := 0; customCount := 0 |}).
  intros [n e] Hin. apply migrateEvent_unchanged; [done|].
  intros r t Hr Ht Hne. by apply (Hcanon n e r t).
Qed.

(** X8.  A migration between collections in which every old page is found
    again under its key, unchanged, rewrites no canonical route: the table
    comes out as it went in and no custom rewrite is counted.  The table is
    an ordinary one (no event name, route or condition target is a name
    that every object inherits, for which the path map of the source
    would find a function) and the numbers are safe integers. *)
Theorem migration_without_moves_is_identity
    (oldPages newPages : list (string * PageConfig))
    (eventRouting : list (string * EventLogic)) :
  NoDup (keys oldPages) ->
  (∀ k page, lookupKey k oldPages = Some page -> lookupKey k newPages = Some page) ->
  canonicalRoutes eventRouting ->
  ordinaryRoutes eventRouting ->
  safePaths oldPages ->
  routing (reindexEventRouting oldPages newPages eventRouting) = eventRouting ∧
  customCount (reindexEventRouting oldPages newPages eventRouting) = 0%nat.
Proof.
  intros Hnd Hext Hcanon _ _. unfold reindexEventRouting.
  rewrite (buildPathMap_unchanged oldPages newPages Hnd Hext).
  case_decide; [done|].
  apply (migrateLoop_unchanged oldPages newPages
           (buildEventOwnerMap oldPages eventRouting) eventRouting
           {| routing := []; sequentialCount := 0; customCount := 0 |}).
  intros [n e] Hin. apply migrateEvent_unchanged; [done|].
  intros r t Hr Ht Hne. by apply (Hcanon n e r t).
Qed.

(** ** Adding a page *)

Lemma withPath_same page : withPath page (path page) = page.
Proof. by destruct page. Qed.

Lemma reindexPages_fixed ps : reindexPages ps = ps <-> pathsSequential ps.
Proof.
  split.
  - intros <-. apply reindexPages_sequential.
  - intros Hseq. apply list_eq. intros i. rewrite reindexPages_lookup.
    destruct (ps !! i) as [[k p]|] eqn:E; [|done]. simpl.
    rewrite <- (pathsSequential_lookup ps i (k, p) Hseq E). simpl.
    by rewrite withPath_same.
Qed.

Lemma lookupKey_app_l {A} (d1 d2 : list (string * A)) k v :
  lookupKey k d1 = Some v -> lookupKey k (d1 ++ d2) = Some v.
Proof.
  induction d1 as [|[k' v'] d1 IH]; simpl; [done|].
  destruct (decide (k' = k)); [done|]. apply IH.
Qed.

Lemma keys_setKey_present {A} (d : list (string * A)) k v :
  k ∈ keys d -> keys (setKey k v d) = keys d.
Proof.
  unfold keys. induction d as [|[k' v'] d IH]; intros Hin.
  - by apply elem_of_nil in Hin.
  - simpl. destruct (decide (k' = k)) as [->|Hne]; [done|]. simpl.
    f_equal. apply IH. rewrite fmap_cons in Hin.
    apply elem_of_cons in Hin as [?|?]; [done|done].
Qed.

(** X9.  Adding a page under a new key to a collection with sequential
    paths appends it with the next path and makes it the active page; the
    pages that were there and the routing table (of canonical routes) are
    not touched, and one undo takes the page away again.  Under a key that
    is in use the page replaces the old one where it stood.  The new key
    is a plain one: an array index would be listed before the pages that
    are there, and renumber them.  No page is keyed [__proto__], a key the
    reindexer cannot write, and the routing table is an ordinary one over
    safe integers. *)
Theorem addPage_appends (pageId : string) (newConfig : PageConfig)
    (s : Store FunnelConfig) :
  let ps := pages (config s) in
  let s' := addPage pageId newConfig s in
  (pathsSequential ps -> NoDup (keys ps) -> pageId ∉ keys ps ->
   plainKey pageId -> ("__proto__" ∉ keys ps) ->
   canonicalRoutes (event_routing (config s)) ->
   ordinaryRoutes (event_routing (config s)) ->
   safePaths ps ->
   pages (config s') = ps ++ [(pageId, withPath newConfig (indexToPath (length ps)))] ∧
   event_routing (config s') = event_routing (config s)) ∧
  (pageId ∈ keys ps -> ("__proto__" ∉ keys ps) -> keys (pages (config s')) = keys ps) ∧
  activePageId s' = pageId ∧
  config (undo s') = config s.
Proof.
  intros ps s'. subst s'. unfold addPage. split_and!.
  - intros Hseq Hnd Hfresh _ _ Hcanon _ _.
    cbn [config setActivePageId setConfig]. fold ps.
    rewrite (setKey_fresh pageId newConfig ps Hfresh).
    assert (reindexPages (ps ++ [(pageId, newConfig)])
            = ps ++ [(pageId, withPath newConfig (indexToPath (length ps)))]) as Hre.
    { unfold reindexPages. rewrite imap_app. simpl. rewrite Nat.add_0_r.
      f_equal. by apply reindexPages_fixed. }
    rewrite Hre. unfold commitPages. fold ps. simpl. split; [done|].
    apply migration_without_moves_is_identity_aux; [done| |done].
    intros k page. apply lookupKey_app_l.
  - intros Hin _. cbn [config setActivePageId setConfig]. unfold commitPages. simpl.
    fold ps. by rewrite reindexPages_keys, keys_setKey_present.
  - done.
  - unfold undo. cbn [history config setActivePageId activePageId notification].
    destruct (undo_redo_around_mutation_aux
                (fun prev => commitPages
                   (reindexPages (setKey pageId newConfig (pages prev))) prev) s)
      as [_ [l Hl]].
    rewrite Hl, last_snoc. done.
Qed.

Lemma fourRouting_ordinary : ordinaryRoutes Sample.fourRouting.
Proof.
  intros n e Hin. apply list_elem_of_singleton in Hin. injection Hin as -> ->.
  split; [reflexivity|]. intros r [= <-]. split.
  - intros t [= <-]. split; [safe_integer | reflexivity].
  - intros conds cond t Hc. discriminate Hc.
Qed.

Lemma fourPages_safe : safePaths Sample.fourPages.
Proof.
  intros k page Hin. unfold Sample.fourPages in Hin.
  rewrite !elem_of_cons, elem_of_nil in Hin.
  destruct Hin as [H|[H|[H|[H|[]]]]]; injection H as -> ->; safe_integer.
Qed.

Lemma fourRouting_canonical : canonicalRoutes Sample.fourRouting.
Proof.
  intros n e r t Hin Hr Ht _. apply list_elem_of_singleton in Hin.
  injection Hin as -> ->. injection Hr as <-. injection Ht as <-. reflexivity.
Qed.

(** The four sample pages and the same pages with one more at the end. *)
Lemma migration_without_moves_is_identity_witness :
  let extended := Sample.fourPages ++ [("offer", Sample.page "Offer" "5" [])] in
  NoDup (keys Sample.fourPages) ∧
  routing (reindexEventRouting Sample.fourPages extended Sample.fourRouting)
    = Sample.fourRouting ∧
  customCount (reindexEventRouting Sample.fourPages extended Sample.fourRouting) = 0%nat.
Proof.
  intros extended.
  assert (NoDup (keys Sample.fourPages)) as Hnd by compute_done.
  split; [exact Hnd|].
  apply (migration_without_moves_is_identity Sample.fourPages extended Sample.fourRouting Hnd).
  - intros k page. apply lookupKey_app_l.
  - exact fourRouting_canonical.
  - exact fourRouting_ordinary.
  - exact fourPages_safe.
Defined.

(** An offer page added to the four sample pages. *)
Lemma addPage_appends_witness :
  let s := Sample.session "intro" (Sample.funnel Sample.fourPages Sample.fourRouting) in
  let s' := addPage "offer" (Sample.page "Offer" "" []) s in
  pathsSequential Sample.fourPages ∧
  pages (config s') = Sample.fourPages ++ [("offer", Sample.page "Offer" "5" [])] ∧
  event_routing (config s') = Sample.fourRouting.
Proof.
  intros s s'.
  assert (pathsSequential Sample.fourPages) as Hseq by (vm_compute; reflexivity).
  split; [exact Hseq|].
  destruct (addPage_appends "offer" (Sample.page "Offer" "" []) s) as [H _].
  apply H; [exact Hseq | compute_done | compute_done | by split | compute_done
           | exact fourRouting_canonical | exact fourRouting_ordinary
           | exact fourPages_safe].
Defined.

(** ** Deleting, reordering and duplicating pages *)

Lemma findIndex_Some {A} (d : list (string * A)) k (i : nat) :
  findIndex k d = Some i -> keys d !! i = Some k.
Proof.
  unfold keys. revert i. induction d as [|[k' v] d IH]; intros i; simpl; [done|].
  destruct (decide (k' = k)) as [->|Hne].
  - by intros [= <-].
  - destruct (findIndex k d) as [j|]; [|done]. simpl. intros [= <-]. by apply IH.
Qed.

Lemma findIndex_present {A} (d : list (string * A)) k :
  k ∈ keys d -> is_Some (findIndex k d).
Proof.
  unfold keys. induction d as [|[k' v] d IH]; intros Hin.
  - by apply elem_of_nil in Hin.
  - simpl. destruct (decide (k' = k)); [by eexists|].
    rewrite fmap_cons in Hin. apply elem_of_cons in Hin as [?|Hin]; [done|].
    destruct (IH Hin) as [j ->]. by eexists.
Qed.

Lemma findIndex_lookup {A} (d : list (string * A)) k v (i : nat) :
  NoDup (keys d) -> d !! i = Some (k, v) -> findIndex k d = Some i.
Proof.
  intros Hnd Hi.
  destruct (findIndex_present d k) as [j Hj].
  { apply list_elem_of_fmap. exists (k, v). split; [done|].
    apply list_elem_of_lookup. by exists i. }
  rewrite Hj. f_equal. apply findIndex_Some in Hj.
  eapply NoDup_lookup; [done|done|]. unfold keys. by rewrite list_lookup_fmap, Hi.
Qed.





Lemma reorder_fold {A} (ps : list (string * A)) (l : list string) acc :
  NoDup l -> (∀ k, k ∈ l -> k ∉ keys acc) ->
  fold_left (fun acc key =>
    match lookupKey key ps with
    | Some page => setKey key page acc
    | None => acc
    end) l acc
  = acc ++ omap (fun k => pair k <$> lookupKey k ps) l.
Proof.
  revert acc. induction l as [|k l IH]; intros acc Hnd Hfresh.
  - simpl. by rewrite app_nil_r.
  - apply NoDup_cons in Hnd as [Hk Hnd]. cbn [fold_left].
    change (omap ?f (k :: l)) with
      (match f k with Some y => y :: omap f l | None => omap f l end).
    cbv beta. destruct (lookupKey k ps) as [page|] eqn:E; simpl.
    + rewrite setKey_fresh by (apply Hfresh; left).
      rewrite IH; [by rewrite <- app_assoc|done|].
      intros k' Hk'. unfold keys. rewrite fmap_app, not_elem_of_app. split.
      * apply Hfresh. by right.
      * simpl. rewrite list_elem_of_singleton. by intros ->.
    + apply IH; [done|]. intros k' Hk'. apply Hfresh. by right.
Qed.

Lemma picked_keys {A} (ps : list (string * A)) (l : list string) :
  keys (omap (fun k => pair k <$> lookupKey k ps) l)
  = filter (fun k => k ∈ keys ps) l.
Proof.
  induction l as [|k l IH]; [done|].
  change (omap ?f (k :: l)) with
    (match f k with Some y => y :: omap f l | None => omap f l end).
  cbv beta. destruct (lookupKey k ps) as [page|] eqn:E; simpl.
  - rewrite filter_cons_True.
    + unfold keys in *. simpl. f_equal. exact IH.
    + apply lookupKey_Some_elem in E. apply list_elem_of_fmap. by exists (k, page).
  - rewrite filter_cons_False; [exact IH|]. by apply lookupKey_None.
Qed.

Lemma picked_elem {A} (ps : list (string * A)) (l : list string) k v :
  (k, v) ∈ omap (fun k => pair k <$> lookupKey k ps) l ->
  lookupKey k ps = Some v.
Proof.
  intros (k' & _ & Hk')%list_elem_of_omap.
  destruct (lookupKey k' ps) as [v'|] eqn:E; [|done].
  simpl in Hk'. by injection Hk' as -> ->.
Qed.

Lemma filter_all {A} (P : A -> Prop) `{∀ x, Decision (P x)} (l : list A) :
  Forall P l -> filter P l = l.
Proof.
  induction 1 as [|x l Hx _ IH]; [done|]. by rewrite filter_cons_True, IH.
Qed.

(** X11.  Reordering with a duplicate-free order keeps exactly the named
    pages that exist, in the order given: a page the order does not name
    is dropped, a name that is no page is skipped.  Every page kept is the
    old page with its path set to its new position, and the active page is
    left alone.  The pages named have plain keys, which an object lists in
    the order of their creation (array indices it lists first, whatever
    the order asked for), and a name that is no page is none of the names
    every object inherits (under such a name the source finds a function
    and keeps it as a page). *)
Theorem reorderPages_follows_order (newOrder : list string) (s : Store FunnelConfig) :
  let ps := pages (config s) in
  let s' := reorderPages newOrder s in
  NoDup newOrder ->
  (∀ k, k ∈ newOrder -> k ∈ keys ps -> plainKey k) ->
  (∀ k, k ∈ newOrder -> k ∉ keys ps -> inheritedName k = false) ->
  keys (pages (config s')) = filter (fun k => k ∈ keys ps) newOrder ∧
  (newOrder ≡ₚ keys ps -> keys (pages (config s')) = newOrder) ∧
  (∀ (i : nat) k page', pages (config s') !! i = Some (k, page') ->
     ∃ page, lookupKey k ps = Some page ∧ page' = withPath page (indexToPath i)) ∧
  pathsSequential (pages (config s')) ∧
  activePageId s' = activePageId s.
Proof.
  intros ps s' Hnd _ _.
  set (raw := omap (fun k => pair k <$> lookupKey k ps) newOrder).
  assert (pages (config s') = reindexPages raw ∧ activePageId s' = activePageId s)
    as [Hpages Hactive].
  { subst s'. unfold reorderPages. fold ps.
    rewrite (reorder_fold ps newOrder []) by
      (done || intros; apply not_elem_of_nil).
    rewrite app_nil_l. fold raw.
    by destruct (_ || _). }
  assert (keys (pages (config s')) = filter (fun k => k ∈ keys ps) newOrder) as Hkeys.
  { rewrite Hpages, reindexPages_keys. apply picked_keys. }
  split_and!.
  - exact Hkeys.
  - intros Hperm. rewrite Hkeys. apply filter_all.
    apply Forall_forall. intros k Hk. by rewrite <- Hperm.
  - intros i k page'. rewrite Hpages, reindexPages_lookup.
    destruct (raw !! i) as [[k0 page]|] eqn:E; [|done].
    simpl. intros [= -> <-]. exists page. split; [|done].
    apply (picked_elem ps newOrder). apply list_elem_of_lookup. by exists i.
  - rewrite Hpages. apply reindexPages_sequential.
  - exact Hactive.
Qed.

Lemma reorderPages_follows_order_witness :
  let s := Sample.session "b" (Sample.funnel Sample.fivePages Sample.fiveRouting) in
  keys (pages (config (reorderPages ["c"; "ghost"; "a"; "b"] s))) = ["c"; "a"; "b"] ∧
  keys (pages (config (reorderPages ["c"; "y"; "x"; "a"; "b"] s)))
    = ["c"; "y"; "x"; "a"; "b"].
Proof.
  intros s.
  destruct (reorderPages_follows_order ["c"; "ghost"; "a"; "b"] s) as (H1 & _);
    [compute_done
    | intros k Hk _; revert k Hk; apply Forall_forall; repeat constructor; done
    | intros k Hk _; revert k Hk; apply Forall_forall; compute_done |].
  destruct (reorderPages_follows_order ["c"; "y"; "x"; "a"; "b"] s) as (_ & H2 & _);
    [compute_done
    | intros k Hk _; revert k Hk; apply Forall_forall; repeat constructor; done
    | intros k Hk _; revert k Hk; apply Forall_forall; compute_done |].
  split.
  - rewrite H1. vm_compute. reflexivity.
  - apply H2. vm_compute.
    apply NoDup_Permutation; [compute_done | compute_done |].
    intros k. rewrite !elem_of_cons, !elem_of_nil. tauto.
Defined.

(** X12.  Duplicating a page that does not exist does nothing (the id is
    none of the names every object inherits, under which the source finds
    something to clone).  Otherwise, when the generated id is not yet
    taken and the pages have plain keys, the copy is placed right after
    its original, named after it with " (Copy)" appended, numbered by its
    position, and becomes the active page; all pages come out numbered
    1..n.  With array indices among the keys the object built from the
    entries would list those first, before the copy. *)
Theorem duplicatePage_inserts_after_original (pageId : string) (now : Z)
    (s : Store FunnelConfig) :
  let ps := pages (config s) in
  let newId := pageId +:+ "-copy-" +:+ pretty now in
  let s' := duplicatePage pageId now s in
  (inheritedName pageId = false -> lookupKey pageId ps = None -> s' = s) ∧
  (∀ (i : nat) page,
     NoDup (keys ps) -> ps !! i = Some (pageId, page) -> newId ∉ keys ps ->
     Forall plainKey (keys ps) ->
     keys (pages (config s')) = take (S i) (keys ps) ++ newId :: drop (S i) (keys ps) ∧
     pages (config s') !! S i
       = Some (newId, withPath (withName page (name page +:+ " (Copy)"))
                        (indexToPath (S i))) ∧
     pathsSequential (pages (config s')) ∧
     activePageId s' = newId).
Proof.
  intros ps newId s'. split.
  - intros _ Hnone. subst s'. unfold duplicatePage. fold ps. by rewrite Hnone.
  - intros i page Hnd Hi Hfresh _.
    assert (lookupKey pageId ps = Some page) as Hlook.
    { apply lookupKey_NoDup_elem; [done|]. apply list_elem_of_lookup. by exists i. }
    pose proof (findIndex_lookup ps pageId page i Hnd Hi) as Hidx.
    set (newPage := withName page (name page +:+ " (Copy)")).
    set (newEntries := take (S i) ps ++ [(newId, newPage)] ++ drop (S i) ps).
    assert (keys newEntries = take (S i) (keys ps) ++ newId :: drop (S i) (keys ps))
      as Hkeys.
    { unfold newEntries, keys. by rewrite !fmap_app, fmap_take, fmap_drop. }
    assert (NoDup (keys newEntries)) as Hnd'.
    { rewrite Hkeys. eapply (NoDup_Permutation_proper _ (newId :: keys ps)).
      - by rewrite <- Permutation_middle, take_drop.
      - by apply NoDup_cons. }
    assert (pages (config s') = reindexPages newEntries ∧ activePageId s' = newId)
      as [Hpages Hactive].
    { subst s'. unfold duplicatePage. fold ps. rewrite Hlook, Hidx.
      fold newId newPage newEntries. by rewrite (fromEntries_NoDup newEntries). }
    split_and!.
    + by rewrite Hpages, reindexPages_keys.
    + rewrite Hpages, reindexPages_lookup. unfold newEntries.
      apply lookup_lt_Some in Hi.
      rewrite lookup_app_r by (rewrite length_take; lia).
      rewrite length_take, Nat.min_l by lia. by rewrite Nat.sub_diag.
    + rewrite Hpages. apply reindexPages_sequential.
    + exact Hactive.
Qed.

Lemma duplicatePage_inserts_after_original_witness :
  let s := Sample.session "b" (Sample.funnel Sample.fivePages Sample.fiveRouting) in
  keys (pages (config (duplicatePage "a" 1700000000000 s)))
    = ["b"; "a"; "a-copy-1700000000000"; "x"; "y"; "c"] ∧
  activePageId (duplicatePage "a" 1700000000000 s) = "a-copy-1700000000000".
Proof.
  intros s.
  destruct (duplicatePage_inserts_after_original "a" 1700000000000 s) as (_ & H).
  destruct (H 1%nat (Sample.page "A" "2" [("_on_skip", JStr "skip_to_offer")]))
    as (Hkeys & _ & _ & Hactive);
    [compute_done | reflexivity | compute_done | repeat constructor; done |].
  split.
  - rewrite Hkeys. vm_compute. reflexivity.
  - rewrite Hactive. vm_compute. reflexivity.
Defined.

(** ** The validator's third check, both ways *)

Lemma elem_of_flat_map {A B} (f : A -> list B) (l : list A) (y : B) :
  y ∈ flat_map f l <-> ∃ x, x ∈ l ∧ y ∈ f x.
Proof.
  rewrite list_elem_of_In, in_flat_map. split.
  - intros (x & Hx & Hy). exists x. by rewrite !list_elem_of_In.
  - intros (x & Hx & Hy). exists x. by rewrite <- !list_elem_of_In.
Qed.

Lemma elem_of_concat_imap {A B} (f : nat -> A -> list B) (l : list A) (y : B) :
  y ∈ concat (imap f l) <-> ∃ (i : nat) x, l !! i = Some x ∧ y ∈ f i x.
Proof.
  revert f. induction l as [|x l IH]; intros f; simpl.
  - split; [by intros ?%elem_of_nil | by intros (i & x & ? & _)].
  - rewrite elem_of_app, IH. split.
    + intros [Hy | (i & x' & Hi & Hy)]; [by exists 0%nat, x | by exists (S i), x'].
    + intros ([|i] & x' & Hi & Hy); simpl in Hi.
      * injection Hi as <-. by left.
      * right. by exists i, x'.
Qed.

Lemma nonEmpty_true (s : string) : nonEmpty s = true <-> s ≠ EmptyString.
Proof. by destruct s. Qed.

(** Splits [e ∈ report] into the issues [report] can hold. *)
Ltac issue_cases :=
  repeat match goal with
  | H : _ ∈ [] |- _ => by apply elem_of_nil in H
  | H : _ ∈ _ ++ _ |- _ => apply elem_of_app in H as [H|H]
  | H : _ ∈ _ :: _ |- _ => apply elem_of_cons in H as [->|H]
  | H : _ ∈ (if ?b then _ else _) |- _ => destruct b eqn:?
  | H : _ ∈ match ?x with _ => _ end |- _ => destruct x eqn:?
  end.

Lemma routingError_checkPath kv e : e ∈ checkPath kv -> ¬ routingError e.
Proof. unfold checkPath. intros H [Ht Hf]. by issue_cases. Qed.

Lemma routingError_checkSequence ps e : e ∈ checkSequence ps -> ¬ routingError e.
Proof. unfold checkSequence. intros H [Ht Hf]. by issue_cases. Qed.

Lemma routingError_checkTemplate templates kv e :
  e ∈ checkTemplate templates kv -> ¬ routingError e.
Proof. unfold checkTemplate. intros H [Ht Hf]. by issue_cases. Qed.

Lemma routingError_checkEventRefs eventRouting kv e :
  e ∈ checkEventRefs eventRouting kv -> ¬ routingError e.
Proof.
  unfold checkEventRefs. intros (entry & _ & H)%elem_of_flat_map [Ht Hf].
  by issue_cases.
Qed.

Lemma routingError_checkContent kv e : e ∈ checkContent kv -> ¬ routingError e.
Proof. unfold checkContent. intros H [Ht Hf]. by issue_cases. Qed.

Lemma routingError_checkTheme t e : e ∈ checkTheme t -> ¬ routingError e.
Proof. unfold checkTheme. intros H [Ht Hf]. by issue_cases. Qed.

Lemma routingError_checkPreview ps e : e ∈ checkPreview ps -> ¬ routingError e.
Proof. unfold checkPreview. intros H [Ht Hf]. by issue_cases. Qed.

Lemma routingError_checkEvent validPaths kv e :
  e ∈ checkEvent validPaths kv -> routingError e -> danglingTarget validPaths kv.2.
Proof.
  unfold checkEvent, checkRouteTo, checkConditions, danglingTarget.
  intros H [Ht Hf]. apply elem_of_app in H as [H|H].
  - destruct (route kv.2) as [r|]; [|by issue_cases].
    exists r. split; [done|]. left.
    destruct (to r) as [t|]; [|by issue_cases].
    destruct (nonEmpty t && _) eqn:E; [|by issue_cases].
    apply andb_prop in E as [Hne Hin]. exists t. split_and!; [done| |].
    + by apply nonEmpty_true.
    + apply negb_true_iff in Hin. by apply bool_decide_eq_false in Hin.
  - destruct (route kv.2) as [r|]; [|by issue_cases].
    exists r. split; [done|]. right.
    destruct (conditions r) as [conds|]; [|by issue_cases].
    apply elem_of_concat_imap in H as (i & cond & Hi & H).
    exists conds, cond. unfold checkCondition in H.
    apply elem_of_app in H as [H|H]; [|by issue_cases].
    destruct (target cond) as [t|]; [|by issue_cases].
    destruct (nonEmpty t && _) eqn:E; [|by issue_cases].
    apply andb_prop in E as [Hne Hin]. exists t. split_and!; [done| |done| |].
    + apply list_elem_of_lookup. by exists i.
    + by apply nonEmpty_true.
    + apply negb_true_iff in Hin. by apply bool_decide_eq_false in Hin.
Qed.

Lemma danglingTarget_checkEvent validPaths kv :
  danglingTarget validPaths kv.2 ->
  ∃ e, e ∈ checkEvent validPaths kv ∧ routingError e.
Proof.
  intros (r & Hr & [(t & Ht & Hne & Hin) | (conds & cond & t & Hc & Hcond & Ht & Hne & Hin)]).
  - exists (danglingRoute kv.1 t). split; [|done].
    unfold checkEvent, checkRouteTo. apply elem_of_app. left.
    rewrite Hr, Ht. apply nonEmpty_true in Hne. rewrite Hne.
    rewrite bool_decide_eq_false_2 by done. simpl. by left.
  - apply list_elem_of_lookup in Hcond as [i Hi].
    eexists. split; [|shelve].
    unfold checkEvent, checkConditions. apply elem_of_app. right.
    rewrite Hr, Hc. apply elem_of_concat_imap. exists i, cond. split; [done|].
    unfold checkCondition. apply elem_of_app. left.
    rewrite Ht. apply nonEmpty_true in Hne. rewrite Hne.
    rewrite bool_decide_eq_false_2 by done. simpl. left.
    Unshelve. done.
Qed.

(** X13.  The validator reports an error on [event_routing] exactly when
    some routing entry has a target that is no page's path, be it the
    default route or the target of a condition.  No other check produces
    such an error, and no dangling target goes unreported. *)
Theorem validator_routing_errors_iff (config : FunnelConfig) :
  (∃ e, e ∈ validateConfig config ∧ routingError e) <->
  (∃ eventName event, (eventName, event) ∈ event_routing config ∧
     danglingTarget (validPathsOf (pages config)) event).
Proof.
  unfold validateConfig. split.
  - intros (e & He & Herr). rewrite !elem_of_app, !elem_of_flat_map in He.
    destruct He as [(kv & _ & H) | [H | [(kv & _ & H) | [(kv & Hkv & H) |
                   [(kv & _ & H) | [(kv & _ & H) | [H | H]]]]]]].
    + by apply routingError_checkPath in H.
    + by apply routingError_checkSequence in H.
    + by apply routingError_checkTemplate in H.
    + destruct kv as [eventName event]. exists eventName, event. split; [done|].
      by apply (routingError_checkEvent _ (eventName, event) e).
    + by apply routingError_checkEventRefs in H.
    + by apply routingError_checkContent in H.
    + by apply routingError_checkTheme in H.
    + by apply routingError_checkPreview in H.
  - intros (eventName & event & Hin & Hd).
    destruct (danglingTarget_checkEvent _ (eventName, event) Hd) as (e & He & Herr).
    exists e. split; [|done]. rewrite !elem_of_app, !elem_of_flat_map.
    do 3 right. left. by exists (eventName, event).
Qed.

(** ** Export *)

Lemma filter_agree {A} (P Q : A -> Prop) `{∀ x, Decision (P x)} `{∀ x, Decision (Q x)}
    (l : list A) :
  (∀ x, x ∈ l -> P x <-> Q x) -> filter P l = filter Q l.
Proof.
  induction l as [|x l IH]; intros Hall; [done|].
  rewrite !filter_cons. rewrite IH by (intros y ?; apply Hall; by right).
  destruct (decide (P x)) as [HP|HP], (decide (Q x)) as [HQ|HQ]; try done.
  - destruct HQ. by apply (Hall x); [left|].
  - destruct HP. by apply (Hall x); [left|].
Qed.

(** The only issue on the field [pages] is a warning. *)
Lemma error_not_on_pages config e :
  e ∈ validateConfig config -> issue_type e = SevError -> issue_field e ≠ "pages".
Proof.
  unfold validateConfig. intros He Ht Hf.
  rewrite !elem_of_app, !elem_of_flat_map in He.
  destruct He as [(kv & _ & H) | [H | [(kv & _ & H) | [(kv & _ & H) |
                 [(kv & _ & H) | [(kv & _ & H) | [H | H]]]]]]].
  - unfold checkPath in H. by issue_cases.
  - unfold checkSequence in H. by issue_cases.
  - unfold checkTemplate in H. by issue_cases.
  - unfold checkEvent, checkRouteTo, checkConditions in H.
    apply elem_of_app in H as [H|H].
    + by issue_cases.
    + destruct (route kv.2) as [r|]; [|by issue_cases].
      destruct (conditions r) as [conds|]; [|by issue_cases].
      apply elem_of_concat_imap in H as (i & cond & _ & H).
      unfold checkCondition in H. by issue_cases.
  - unfold checkEventRefs in H. apply elem_of_flat_map in H as (entry & _ & H).
    by issue_cases.
  - unfold checkContent in H. by issue_cases.
  - unfold checkTheme in H. by issue_cases.
  - unfold checkPreview in H. by issue_cases.
Qed.

Lemma withPages_same config : withPages config (pages config) = config.
Proof. by destruct config. Qed.

(** X14.  The exported configuration: the preview page is gone, the other
    pages keep their order and are numbered 1..n, so the exported pages
    pass the path checks and the preview check, and nothing but the pages
    is changed (the routing table is exported as it stands).  A
    configuration that is numbered and has no preview page is exported
    as it is.  The errors returned are all the error-severity issues of
    the configuration before compilation, so a broken numbering is
    reported although the export has repaired it. *)
Theorem export_compiles_pages (config : FunnelConfig) :
  let out := prepareConfigForExport config in
  let compiled := export_config out in
  keys (pages compiled)
    = filter (fun k => k ≠ "__template_preview__") (keys (pages config)) ∧
  pathsSequential (pages compiled) ∧
  (∀ (i : nat) k page', pages compiled !! i = Some (k, page') ->
     ∃ page, (k, page) ∈ pages config ∧ page' = withPath page (indexToPath i)) ∧
  flat_map checkPath (pages compiled) = [] ∧
  checkSequence (pages compiled) = [] ∧
  checkPreview (pages compiled) = [] ∧
  withPages compiled (pages config) = config ∧
  export_errors out = filter (fun e => issue_type e = SevError) (validateConfig config) ∧
  (checkSequence (pages config) ≠ [] -> export_errors out ≠ []) ∧
  (pathsSequential (pages config) -> "__template_preview__" ∉ keys (pages config) ->
   compiled = config).
Proof.
  intros out compiled.
  set (remaining := withoutKey "__template_preview__" (pages config)).
  assert (pages compiled = reindexPages remaining) as Hpages by done.
  assert (keys (pages compiled)
          = filter (fun k => k ≠ "__template_preview__") (keys (pages config))) as Hkeys.
  { rewrite Hpages, reindexPages_keys. apply keys_withoutKey. }
  assert (export_errors out
          = filter (fun e => issue_type e = SevError) (validateConfig config)) as Herrors.
  { subst out. unfold prepareConfigForExport. cbn [export_errors].
    apply filter_agree. intros e He. split; [by intros [? _]|].
    intros Ht. split; [done|]. by apply (error_not_on_pages config). }
  pose proof (reindexPages_sequential remaining) as Hseq. rewrite <- Hpages in Hseq.
  destruct (sequential_paths_checked _ Hseq) as [Hpath Hsequence].
  split_and!; try done.
  - intros i k page'. rewrite Hpages, reindexPages_lookup.
    destruct (remaining !! i) as [[k0 page]|] eqn:E; [|done].
    simpl. intros [= <- <-]. exists page. split; [|done].
    assert ((k0, page) ∈ remaining) as Hin by (apply list_elem_of_lookup; by exists i).
    unfold remaining, withoutKey in Hin. by apply list_elem_of_filter in Hin as [_ ?].
  - unfold checkPreview.
    assert (lookupKey "__template_preview__" (pages compiled) = None) as ->; [|done].
    apply lookupKey_None. rewrite Hkeys. intros Hin.
    by apply list_elem_of_filter in Hin as [? _].
  - by destruct config.
  - intros Hbroken. rewrite Herrors. unfold checkSequence in Hbroken.
    destruct (decide (_ = _)) as [|Hne] eqn:E; [done|]. clear Hbroken.
    intros Hnil.
    assert (∀ e, e ∈ checkSequence (pages config) -> issue_type e = SevError ->
                 e ∈ filter (fun e => issue_type e = SevError) (validateConfig config))
      as Hin.
    { intros e He Ht. apply list_elem_of_filter. split; [done|].
      unfold validateConfig. rewrite !elem_of_app. right. by left. }
    unfold checkSequence in Hin. rewrite E in Hin.
    specialize (Hin _ ltac:(left) eq_refl). rewrite Hnil in Hin.
    by apply elem_of_nil in Hin.
  - intros Hs Hno. subst compiled out. unfold prepareConfigForExport.
    cbn [export_config]. unfold withoutKey.
    assert (filter (fun kv : string * PageConfig => kv.1 ≠ "__template_preview__")
              (pages config) = pages config) as ->.
    { apply filter_all. apply Forall_forall. intros kv Hkv Heq. apply Hno.
      apply list_elem_of_fmap. by exists kv. }
    rewrite (proj2 (reindexPages_fixed _) Hs). apply withPages_same.
Qed.

Lemma export_compiles_pages_witness :
  let withPreview :=
    Sample.funnel (Sample.fourPages ++ [("__template_preview__", Sample.page "Preview" "9" [])])
      Sample.fourRouting in
  let clean := Sample.funnel Sample.fourPages Sample.fourRouting in
  export_errors (prepareConfigForExport withPreview) ≠ [] ∧
  export_config (prepareConfigForExport clean) = clean.
Proof.
  intros withPreview clean.
  destruct (export_compiles_pages withPreview) as (_ & _ & _ & _ & _ & _ & _ & _ & H & _).
  destruct (export_compiles_pages clean) as (_ & _ & _ & _ & _ & _ & _ & _ & _ & H').
  split.
  - apply H. vm_compute. discriminate.
  - apply H'; [vm_compute; reflexivity | compute_done].
Defined.

(** ** Editing a page in place, deleting a template *)

Lemma setKey_insert {A} (d : list (string * A)) k v old (i : nat) :
  NoDup (keys d) -> d !! i = Some (k, old) -> setKey k v d = <[i := (k, v)]> d.
Proof.
  unfold keys. revert i. induction d as [|[k' v'] d IH]; intros i Hnd Hi; [done|].
  rewrite fmap_cons in Hnd. apply NoDup_cons in Hnd as [Hk Hnd]. simpl in *.
  destruct i as [|i]; simpl in *.
  - injection Hi as -> ->. by rewrite decide_True.
  - rewrite decide_False.
    + f_equal. by apply IH.
    + intros ->. apply Hk. apply list_elem_of_fmap. exists (k, old). split; [done|].
      apply list_elem_of_lookup. by exists i.
Qed.


(** X15.  Saving a page in place.  The page is stored under its key, where
    the key stood, or at the end for a new key that is no array index (an
    array index is listed before the other keys); the other pages, the
    routing table and the active page are left alone.  The paths are not
    renumbered: on numbered pages the numbering survives exactly when the
    saved page carries the path of the page it replaces. *)
Theorem updatePage_replaces_in_place (pageId : string) (newConfig : PageConfig)
    (s : Store FunnelConfig) :
  let ps := pages (config s) in
  let s' := updatePage pageId newConfig s in
  lookupKey pageId (pages (config s')) = Some newConfig ∧
  (∀ k, k ≠ pageId -> lookupKey k (pages (config s')) = lookupKey k ps) ∧
  (pageId ∈ keys ps -> keys (pages (config s')) = keys ps) ∧
  (pageId ∉ keys ps -> arrayIndex pageId = false ->
   pages (config s') = ps ++ [(pageId, newConfig)]) ∧
  event_routing (config s') = event_routing (config s) ∧
  activePageId s' = activePageId s ∧
  (∀ (i : nat) old, NoDup (keys ps) -> ps !! i = Some (pageId, old) ->
     pathsSequential ps ->
     (pathsSequential (pages (config s')) <-> path newConfig = path old)).
Proof.
  intros ps s'.
  assert (pages (config s') = setKey pageId newConfig ps) as Hpages by done.
  split_and!; try done.
  - rewrite Hpages. apply lookupKey_setKey_eq.
  - intros k Hk. rewrite Hpages. by apply lookupKey_setKey_ne.
  - intros Hin. rewrite Hpages. by apply keys_setKey_present.
  - intros Hfresh _. rewrite Hpages. by apply setKey_fresh.
  - intros i old Hnd Hi Hseq. rewrite Hpages, (setKey_insert ps pageId newConfig old i Hnd Hi).
    pose proof (pathsSequential_lookup ps i (pageId, old) Hseq Hi) as Hold.
    simpl in Hold. rewrite Hold.
    pose proof (lookup_lt_Some _ _ _ Hi) as Hlt.
    unfold pathsSequential, values in *.
    rewrite !list_fmap_insert, length_insert. simpl. rewrite Hseq. split.
    + intros Heq.
      assert (<[i:=path newConfig]> (indexToPath <$> seq 0 (length ps)) !! i
              = (indexToPath <$> seq 0 (length ps)) !! i) as Hlook by (by rewrite Heq).
      rewrite list_lookup_insert_eq in Hlook by (by rewrite length_fmap, length_seq).
      rewrite list_lookup_fmap, lookup_seq_lt in Hlook by done.
      by injection Hlook.
    + intros ->. apply list_insert_id.
      by rewrite list_lookup_fmap, lookup_seq_lt.
Qed.

Lemma updatePage_replaces_in_place_witness :
  let s := Sample.session "intro" (Sample.funnel Sample.fourPages Sample.fourRouting) in
  pathsSequential (pages (config (updatePage "about" (Sample.page "About us" "2" []) s))) ∧
  ¬ pathsSequential (pages (config (updatePage "about" (Sample.page "About us" "7" []) s))).
Proof.
  intros s.
  destruct (updatePage_replaces_in_place "about" (Sample.page "About us" "2" []) s)
    as (_ & _ & _ & _ & _ & _ & H2).
  destruct (updatePage_replaces_in_place "about" (Sample.page "About us" "7" []) s)
    as (_ & _ & _ & _ & _ & _ & H7).
  split.
  - apply (H2 1%nat (Sample.page "About" "2" []));
      [compute_done | reflexivity | vm_compute; reflexivity | reflexivity].
  - intros Hseq.
    apply (H7 1%nat (Sample.page "About" "2" [])) in Hseq;
      [discriminate | compute_done | reflexivity | vm_compute; reflexivity].
Defined.




(** ** The workspace invariant *)









(** ** What the walker puts out *)

(** Induction on a template tree, through the arrays of children. *)
Lemma ComponentNode_tree_ind (P : ComponentNode -> Prop) :
  (∀ type component props children,
     childrenAll P children -> P (Node type component props children)) ->
  ∀ node, P node.
Proof.
  intros H. fix IH 1. intros [type component props children]. apply H.
  destruct children as [[nodes|key]|]; simpl; [|exact I..].
  revert nodes. fix go 1. intros [|x l]; constructor; [apply IH|apply go].
Qed.

Lemma resolveProp_sameBindings data data' value :
  sameBindings data data' -> resolveProp value data = resolveProp value data'.
Proof.
  intros Hsame. destruct value; try done. unfold resolveProp.
  destruct (startsWith "_" s) eqn:E; [|done]. by rewrite (Hsame s E).
Qed.



(** X19.  The walker reads the data through bindings only: two
    dictionaries that agree on every key that starts with an underscore
    give the same output for every tree. *)
Theorem renderer_reads_bindings_only (registry : list string) (theme : ThemeConfig)
    (data data' : list (string * json)) (node : ComponentNode) :
  sameBindings data data' ->
  RecursiveRenderer registry data theme node = RecursiveRenderer registry data' theme node.
Proof.
  intros Hsame. induction node as [type component props children IH]
    using ComponentNode_tree_ind.
  simpl. destruct (componentNameOf type component) as [k|]; [|done].
  destruct (bool_decide (k ∈ registry)); [|done].
  f_equal.
  - unfold resolveProps. apply list_fmap_ext. intros _ [key value] _. simpl.
    by rewrite (resolveProp_sameBindings data data').
  - destruct children as [[nodes|key]|]; [| |done].
    + f_equal. simpl in IH. induction IH as [|x l Hx _ IHl]; [done|].
      simpl. by rewrite Hx, IHl.
    + destruct (nonEmpty key); [|done]. f_equal.
      exact (resolveProp_sameBindings data data' (JStr key) Hsame).
Qed.

Lemma renderer_reads_bindings_only_witness :
  RecursiveRenderer COMPONENT_REGISTRY
    [("_title_text", JStr "Welcome"); ("draft", JBool true)] Sample.emptyTheme
    SampleTree.withStranger
  = RecursiveRenderer COMPONENT_REGISTRY
      [("note", JStr "internal"); ("_title_text", JStr "Welcome")] Sample.emptyTheme
      SampleTree.withStranger.
Proof.
  apply renderer_reads_bindings_only. intros k Hk.
  destruct k as [|c k]; [done|]. simpl in Hk.
  destruct (decide ("_"%char = c)) as [<-|]; [|done]. clear Hk.
  unfold lookupKey. repeat case_decide; done.
Defined.

(** ** Importing what was imported *)

Lemma setKey_same {A} (d : list (string * A)) k v :
  lookupKey k d = Some v -> setKey k v d = d.
Proof.
  induction d as [|[k' v'] d IH]; simpl; [done|].
  destruct (decide (k' = k)) as [->|Hne].
  - by intros [= ->].
  - intros H. by rewrite IH.
Qed.

Lemma setProp_same k x v : getProp k v = Some x -> setProp k x v = v.
Proof. destruct v; try done; simpl; intros H; by rewrite setKey_same. Qed.

Lemma ensureProp_present k dflt v x :
  getProp k v = Some x -> jsTruthy x = true -> ensureProp k dflt v = v.
Proof. intros Hk Hx. unfold ensureProp. by rewrite Hk, Hx. Qed.

Lemma isObject_truthy v : isObject v = true -> jsTruthy v = true.
Proof. by destruct v. Qed.

Lemma ensure_all_present (sections : list string) (dflt t : json) :
  (∀ k, k ∈ sections -> ∃ x, getProp k t = Some x ∧ jsTruthy x = true) ->
  fold_left (fun t k => ensureProp k dflt t) sections t = t.
Proof.
  induction sections as [|k l IH]; intros Hall; simpl; [done|].
  destruct (Hall k) as (x & Hk & Hx); [left|].
  rewrite (ensureProp_present k dflt t x Hk Hx). apply IH.
  intros k' Hk'. apply Hall. by right.
Qed.

Lemma backfill_fixed doc : completeDocument doc -> backfill doc = doc.
Proof.
  intros [(t & Ht & Hsections) (l & Hl & Hlt)]. unfold backfill. rewrite Ht.
  unfold backfillTheme. rewrite ensure_all_present by done.
  rewrite (setProp_same "theme" t doc Ht). by apply (ensureProp_present _ _ _ l).
Qed.

Lemma backfill_complete doc : hasSection "theme" doc -> completeDocument (backfill doc).
Proof.
  intros (t & Ht & _ & Hobj).
  destruct (backfill_props doc t Ht Hobj) as (Btheme & Blayout & _ & Bsections).
  split.
  - exists (backfillTheme t). split; [done|]. intros k Hk.
    rewrite Bsections, decide_True by done. eexists. split; [done|].
    by apply ensured_truthy.
  - eexists. split; [done|]. by apply ensured_truthy.
Qed.

Lemma backfill_hasSection doc k :
  hasSection "theme" doc -> hasSection k doc -> hasSection k (backfill doc).
Proof.
  intros Htheme (v & Hv & Htruthy & Hobj).
  destruct Htheme as (t & Ht & _ & Hobjt).
  destruct (backfill_props doc t Ht Hobjt) as (Btheme & Blayout & Bother & _).
  destruct (decide (k = "theme")) as [->|Hk1].
  { exists (backfillTheme t). unfold backfillTheme. split; [done|].
    assert (isObject (fold_left (fun t k => ensureProp k emptyObject t) themeSections t)
            = true) as Hobj'.
    { clear -Hobjt. revert t Hobjt. induction themeSections as [|k l IH]; intros t Hobjt;
        simpl; [done|]. apply IH. by rewrite isObject_ensureProp. }
    split; [by apply isObject_truthy|done]. }
  destruct (decide (k = "layout")) as [->|Hk2].
  { exists v. rewrite Blayout, Hv. unfold ensured. by rewrite Htruthy. }
  exists v. by rewrite Bother.
Qed.

Lemma loadConfig_accepted (jsToString : json -> option string) (fileName : string)
    (doc : json) (s : Store json) :
  hasSection "pages" doc -> hasSection "theme" doc -> hasSection "templates" doc ->
  config (loadConfig jsToString fileName (Some doc) s) = backfill doc ∧
  activePageId (loadConfig jsToString fileName (Some doc) s)
    = firstPageOr (backfill doc) (activePageId s).
Proof.
  intros Hp Ht Hm.
  pose proof (proj2 (missingSection_false _ _) Hp) as E1.
  pose proof (proj2 (missingSection_false _ _) Ht) as E2.
  pose proof (proj2 (missingSection_false _ _) Hm) as E3.
  assert (doc ≠ JNull) as Hdoc by (intros ->; by destruct Hp as (? & ? & _)).
  unfold loadConfig, firstPageOr. rewrite E1, E2, E3.
  destruct doc; try done;
    (destruct (getProp "pages" (backfill _) ≫= firstKey) as [k|];
       [destruct (nonEmpty k)|];
     by destruct (loadedMessage jsToString _ (backfill _))).
Qed.

Lemma loadConfig_history (jsToString : json -> option string) (fileName : string)
    (doc : json) (s : Store json) :
  hasSection "pages" doc -> hasSection "theme" doc -> hasSection "templates" doc ->
  history (loadConfig jsToString fileName (Some doc) s) = mkHistory [] [].
Proof.
  intros Hp Ht Hm.
  pose proof (proj2 (missingSection_false _ _) Hp) as E1.
  pose proof (proj2 (missingSection_false _ _) Ht) as E2.
  pose proof (proj2 (missingSection_false _ _) Hm) as E3.
  assert (doc ≠ JNull) as Hdoc by (intros ->; by destruct Hp as (? & ? & _)).
  unfold loadConfig. rewrite E1, E2, E3.
  destruct doc; try done;
    (destruct (getProp "pages" (backfill _) ≫= firstKey) as [k|];
       [destruct (nonEmpty k)|];
     by destruct (loadedMessage jsToString _ (backfill _))).
Qed.

(** X20.  Importing is stable.  A document that already has the six theme
    sub-sections and a layout is imported as it is.  Importing the
    configuration that an import produced gives that configuration again,
    and the same active page.  After an import the active page is the
    first page of the document, or the page that was active when the
    document has no pages. *)
Theorem loadConfig_import_is_stable (jsToString : json -> option string)
    (fileName fileName' : string) (doc : json) (s : Store json) :
  hasSection "pages" doc -> hasSection "theme" doc -> hasSection "templates" doc ->
  let s1 := loadConfig jsToString fileName (Some doc) s in
  let s2 := loadConfig jsToString fileName' (Some (config s1)) s1 in
  (completeDocument doc -> config s1 = doc) ∧
  activePageId s1 = firstPageOr doc (activePageId s) ∧
  config s2 = config s1 ∧
  activePageId s2 = activePageId s1 ∧
  history s2 = history s1.
Proof.
  intros Hp Ht Hm s1 s2.
  destruct (loadConfig_accepted jsToString fileName doc s Hp Ht Hm) as [Hc1 Ha1].
  fold s1 in Hc1, Ha1.
  assert (getProp "pages" (backfill doc) = getProp "pages" doc) as Hpages.
  { destruct Ht as (t & Ht & _ & Hobj).
    by destruct (backfill_props doc t Ht Hobj) as (_ & _ & -> & _). }
  assert (firstPageOr (backfill doc) = firstPageOr doc) as Hfirst.
  { unfold firstPageOr. by rewrite Hpages. }
  pose proof (backfill_fixed _ (backfill_complete doc Ht)) as Hfix.
  destruct (loadConfig_accepted jsToString fileName' (config s1) s1) as [Hc2 Ha2].
  { rewrite Hc1. by apply backfill_hasSection. }
  { rewrite Hc1. by apply backfill_hasSection. }
  { rewrite Hc1. by apply backfill_hasSection. }
  fold s2 in Hc2, Ha2. rewrite Hc1 in Hc2, Ha2. rewrite Hfix in Hc2, Ha2.
  split_and!.
  - intros Hcomplete. rewrite Hc1. by apply backfill_fixed.
  - by rewrite Ha1, Hfirst.
  - by rewrite Hc2, Hc1.
  - rewrite Ha2, Ha1. unfold firstPageOr.
    destruct (getProp "pages" (backfill doc) ≫= firstKey) as [k|]; [|done].
    by destruct (nonEmpty k).
  - subst s2. rewrite Hc1.
    rewrite (loadConfig_history jsToString fileName' (backfill doc) s1)
      by (by apply backfill_hasSection).
    subst s1. by rewrite loadConfig_history.
Qed.

(** The sample with a partial theme: loaded once it gets its gaps filled,
    loaded again it stays as it is. *)
Lemma loadConfig_import_is_stable_witness :
  let s := mkStore SampleImport.current (mkHistory [JNull] []) "old" None in
  let s1 := loadConfig SampleImport.display "funnel.json" (Some SampleImport.partial) s in
  let s2 := loadConfig SampleImport.display "again.json" (Some (config s1)) s1 in
  hasSection "theme" SampleImport.partial ∧
  activePageId s1 = "intro" ∧ config s2 = config s1.
Proof.
  intros s s1 s2.
  assert (∀ k, missingSection k SampleImport.partial = false ->
               hasSection k SampleImport.partial) as Hhas
    by (intros k; apply missingSection_false).
  destruct (loadConfig_import_is_stable SampleImport.display "funnel.json" "again.json"
              SampleImport.partial s) as (_ & Hactive & Hconfig & _);
    [apply Hhas; reflexivity..|].
  split_and!.
  - apply Hhas. reflexivity.
  - fold s1 in Hactive. rewrite Hactive. reflexivity.
  - exact Hconfig.
Defined.

(** ** A sequential route whose owner has become the last page *)

Lemma indexToPath_not_reindexed raw :
  indexToPath (length raw) ∉ validPathsOf (reindexPages raw).
Proof.
  unfold validPathsOf. rewrite elem_of_list_to_set.
  pose proof (reindexPages_sequential raw) as Hseq. unfold pathsSequential in Hseq.
  rewrite Hseq, reindexPages_length. intros Hin.
  apply list_elem_of_fmap in Hin as (i & Heq & Hi).
  apply indexToPath_inj in Heq. subst i. apply elem_of_seq in Hi. lia.
Qed.

(** X21.  The sequential rule does not stop at the end of the funnel.  When
    an edit leaves the owner of a sequential route as the last of the [n]
    pages, the migrated route goes to path [n + 1], which no page has, and
    the validator reports the route as dangling on the committed
    configuration.  The numbers are safe integers, no page is keyed
    [__proto__] and the event is not named so. *)
Theorem sequential_route_past_last_page (c : FunnelConfig)
    (raw : list (string * PageConfig))
    (eventName : string) (event : EventLogic) (r : Route) (oldRouteTo : string)
    (ownerKey : string) (oldOwner newOwner : PageConfig) (p : Z) :
  let newPages := reindexPages raw in
  let c' := commitPages newPages c in
  lookupKey eventName (event_routing c) = Some event ->
  route event = Some r ->
  to r = Some oldRouteTo ->
  eventName ≠ "__proto__" ->
  buildEventOwnerMap (pages c) (event_routing c) !! eventName = Some ownerKey ->
  ownerKey ≠ EmptyString ->
  lookupKey ownerKey (pages c) = Some oldOwner ->
  parseInt (path oldOwner) = Some p ->
  parseInt oldRouteTo = Some (p + 1) ->
  - MAX_SAFE_INTEGER <= p < MAX_SAFE_INTEGER ->
  Z.of_nat (length raw) < MAX_SAFE_INTEGER ->
  ("__proto__" ∉ keys raw) ->
  NoDup (keys raw) ->
  last newPages = Some (ownerKey, newOwner) ->
  ∃ event' r',
    lookupKey eventName (event_routing c') = Some event' ∧
    route event' = Some r' ∧
    to r' = Some (indexToPath (length raw)) ∧
    (indexToPath (length raw) ∉ validPathsOf (pages c')) ∧
    danglingRoute eventName (indexToPath (length raw)) ∈ validateConfig c'.
Proof.
  intros newPages c' Hev Hr Hto _ Hown Hkey Hold Hp Hseq _ _ _ Hnd Hlast.
  assert (lookupKey ownerKey newPages = Some newOwner) as Hnew.
  { apply lookupKey_NoDup_elem.
    - subst newPages. by rewrite reindexPages_keys.
    - rewrite last_lookup in Hlast. apply list_elem_of_lookup. by eexists. }
  assert (∃ i : nat, length raw = S i ∧ path newOwner = indexToPath i) as (i & Hlen & Hpath).
  { rewrite last_lookup in Hlast. subst newPages.
    rewrite reindexPages_length, reindexPages_lookup in Hlast.
    destruct raw as [|kv raw']; [done|]. exists (length raw'). split; [done|].
    simpl in Hlast. destruct ((kv :: raw') !! length raw') as [kv'|]; [|done].
    simpl in Hlast. by injection Hlast as _ <-. }
  assert (∃ event' r',
            lookupKey eventName (event_routing c') = Some event' ∧
            route event' = Some r' ∧ to r' = Some (indexToPath (length raw)))
    as (event' & r' & Hev' & Hr' & Hto').
  { subst c'. unfold commitPages. cbn [event_routing withPagesAndRouting].
    fold newPages. rewrite migrated_lookup, Hev. simpl. unfold migrateEvent.
    rewrite Hr, Hto, (parseInt_Some_nonEmpty _ _ Hseq), Hown. simpl.
    unfold ownerPath. destruct ownerKey as [|ch k]; [done|]. simpl.
    rewrite Hold, Hnew. simpl. rewrite Hseq, Hp. simpl. rewrite Z.eqb_refl.
    eexists _, _. split_and!; try reflexivity.
    simpl. by rewrite Hpath, toString_successor, Hlen. }
  assert (indexToPath (length raw) ∉ validPathsOf (pages c')) as Hout
    by apply indexToPath_not_reindexed.
  exists event', r'. split_and!; try done.
  unfold validateConfig. rewrite !elem_of_app, !elem_of_flat_map.
  do 3 right. left. exists (eventName, event'). split; [by apply lookupKey_Some_elem|].
  unfold checkEvent, checkRouteTo. apply elem_of_app. left. simpl.
  rewrite Hr', Hto'. pose proof (indexToPath_nonempty (length raw)) as Hne.
  apply nonEmpty_true in Hne. rewrite Hne. rewrite bool_decide_eq_false_2 by done.
  simpl. by left.
Qed.

(** The four sample pages with the last one removed: the quiz, owner of a
    route to the next page, is now last, and its route goes to path 4. *)
Lemma sequential_route_past_last_page_witness :
  let c := Sample.funnel Sample.fourPages Sample.fourRouting in
  let c' := commitPages (reindexPages (withoutKey "result" Sample.fourPages)) c in
  danglingRoute "quiz_done" "4" ∈ validateConfig c'.
Proof.
  intros c c'.
  destruct (sequential_route_past_last_page c (withoutKey "result" Sample.fourPages)
              "quiz_done" (Sample.goTo "4") (mkRoute (Some "4") None) "4" "quiz"
              (Sample.page "Quiz" "3" [("_on_click", JStr "quiz_done")])
              (Sample.page "Quiz" "3" [("_on_click", JStr "quiz_done")]) 3)
    as (event' & r' & _ & _ & _ & _ & Hin);
    [reflexivity | reflexivity | reflexivity | done | reflexivity | done | reflexivity
    | reflexivity | reflexivity | unfold MAX_SAFE_INTEGER; lia
    | unfold MAX_SAFE_INTEGER; simpl; lia | compute_done | compute_done
    | reflexivity | exact Hin].
Defined.

(** ** The validator's errors, all of them *)

Lemma checkPath_nil kv : checkPath kv = [] <-> usablePath kv.2.
Proof.
  unfold checkPath, usablePath. destruct (nonEmpty (path kv.2)); simpl.
  - destruct (parseInt10 (path kv.2)) as [n|].
    + split; [|done]. intros _. split; [done|]. by eexists.
    + split; [done|]. by intros [_ [? ?]].
  - split; [done|]. by intros [? _].
Qed.

Lemma checkTemplate_errors templates kv :
  (∀ e, e ∈ checkTemplate templates kv -> issue_type e ≠ SevError) <->
  knownTemplate templates kv.2.
Proof.
  unfold checkTemplate, knownTemplate. split.
  - intros Hno. destruct (nonEmpty (template kv.2)).
    + split; [done|]. destruct (hasProperty (template kv.2) templates); [done|].
      simpl in Hno. exfalso. eapply Hno; [left|done].
    + simpl in Hno. exfalso. eapply Hno; [left|done].
  - intros [-> ->] e He. simpl in He. by issue_cases.
Qed.

Lemma checkEvent_error validPaths kv e :
  e ∈ checkEvent validPaths kv -> issue_type e = SevError -> routingError e.
Proof.
  unfold checkEvent, checkRouteTo, checkConditions. intros H Ht. split; [done|].
  apply elem_of_app in H as [H|H].
  - by issue_cases.
  - destruct (route kv.2) as [r|]; [|by issue_cases].
    destruct (conditions r) as [conds|]; [|by issue_cases].
    apply elem_of_concat_imap in H as (i & cond & _ & H).
    unfold checkCondition in H. by issue_cases.
Qed.

Lemma warnings_only config e :
  e ∈ flat_map (checkEventRefs (event_routing config)) (pages config) ++
      flat_map checkContent (pages config) ++ checkTheme (theme config) ++
      checkPreview (pages config) ->
  issue_type e ≠ SevError.
Proof.
  rewrite !elem_of_app, !elem_of_flat_map.
  intros [(kv & _ & H) | [(kv & _ & H) | [H | H]]] Ht.
  - unfold checkEventRefs in H. apply elem_of_flat_map in H as (entry & _ & H).
    by issue_cases.
  - unfold checkContent in H. by issue_cases.
  - unfold checkTheme in H. by issue_cases.
  - unfold checkPreview in H. by issue_cases.
Qed.

(** X22.  What the validator calls an error.  The report holds no issue of
    severity error exactly when every page has a path that reads as a
    number, those numbers are 1 .. n in some order, every page names a
    template that [templates[name]] finds (a template of the configuration
    or a name every object inherits), and no routing entry has a target
    that is no page's path.  These are also exactly the configurations that
    the export hands over without errors. *)
Theorem validator_passes_iff (c : FunnelConfig) :
  ((∀ e, e ∈ validateConfig c -> issue_type e ≠ SevError) <-> errorFree c) ∧
  (export_errors (prepareConfigForExport c) = [] <-> errorFree c).
Proof.
  assert ((∀ e, e ∈ validateConfig c -> issue_type e ≠ SevError) <-> errorFree c) as Hiff.
  { unfold validateConfig, errorFree. split.
    - intros Hno. split_and!.
      + intros k page Hin. apply (checkPath_nil (k, page)).
        destruct (checkPath (k, page)) as [|e l] eqn:E; [done|]. exfalso.
        assert (e ∈ checkPath (k, page)) as He by (rewrite E; left).
        apply (Hno e).
        * rewrite !elem_of_app, !elem_of_flat_map. left. by exists (k, page).
        * unfold checkPath in He. by issue_cases.
      + apply checkSequence_nil_iff.
        destruct (checkSequence (pages c)) as [|e l] eqn:E; [done|]. exfalso.
        assert (e ∈ checkSequence (pages c)) as He by (rewrite E; left).
        apply (Hno e).
        * rewrite !elem_of_app. right. left. left.
        * unfold checkSequence in He. by issue_cases.
      + intros k page Hin. apply (checkTemplate_errors (templates c) (k, page)).
        intros e He. apply Hno. rewrite !elem_of_app, !elem_of_flat_map.
        do 2 right. left. by exists (k, page).
      + intros eventName event Hin Hd.
        destruct (danglingTarget_checkEvent _ (eventName, event) Hd) as (e & He & [Ht _]).
        apply (Hno e); [|done]. rewrite !elem_of_app, !elem_of_flat_map.
        do 3 right. left. by exists (eventName, event).
    - intros (Hpaths & Hseq & Htemplates & Hroutes) e He.
      apply elem_of_app in He as [He|He];
        [|apply elem_of_app in He as [He|He];
          [|apply elem_of_app in He as [He|He];
            [|apply elem_of_app in He as [He|He]]]].
      + apply elem_of_flat_map in He as ([k page] & Hin & He).
        rewrite (proj2 (checkPath_nil (k, page)) (Hpaths k page Hin)) in He.
        by apply elem_of_nil in He.
      + rewrite (proj2 (checkSequence_nil_iff _) Hseq) in He. by apply elem_of_nil in He.
      + apply elem_of_flat_map in He as ([k page] & Hin & He).
        by apply (proj2 (checkTemplate_errors (templates c) (k, page)) (Htemplates k page Hin)).
      + apply elem_of_flat_map in He as ([eventName event] & Hin & He).
        intros Ht. apply (Hroutes eventName event Hin).
        apply (routingError_checkEvent _ (eventName, event) e He).
        by apply (checkEvent_error (validPathsOf (pages c)) (eventName, event)).
      + by apply (warnings_only c). }
  split; [exact Hiff|]. rewrite <- Hiff.
  unfold prepareConfigForExport. cbn [export_errors].
  rewrite (filter_agree _ (fun e => issue_type e = SevError)); last first.
  { intros e He. split; [by intros [? _]|].
    intros Ht. split; [done|]. by apply (error_not_on_pages c). }
  split.
  - intros Hnil e He Ht.
    assert (e ∈ filter (fun e => issue_type e = SevError) (validateConfig c)) as Hin
      by (by apply list_elem_of_filter).
    rewrite Hnil in Hin. by apply elem_of_nil in Hin.
  - intros Hno. destruct (filter _ (validateConfig c)) as [|e l] eqn:E; [done|].
    assert (e ∈ filter (fun e => issue_type e = SevError) (validateConfig c)) as Hin
      by (rewrite E; left).
    apply list_elem_of_filter in Hin as [Ht Hin]. by destruct (Hno e Hin).
Qed.

(** ** Who owns an event *)






(** ** Undo and the active page *)

(** X24.  Undo and redo restore the configuration, not the selection: they
    never change the active page.  Hence undoing the addition of a new
    page leaves the store with an active page that is none of its
    pages. *)
Theorem undo_leaves_active_page (pageId : string) (newConfig : PageConfig)
    (s : Store FunnelConfig) :
  activePageId (undo s) = activePageId s ∧
  activePageId (redo s) = activePageId s ∧
  (pageId ∉ keys (pages (config s)) ->
   let s' := undo (addPage pageId newConfig s) in
   config s' = config s ∧ activePageId s' = pageId ∧
   (activePageId s' ∉ keys (pages (config s'))) ∧ ¬ wellFormed s').
Proof.
  split_and!.
  - unfold undo. by destruct (last (past (history s))).
  - unfold redo. by destruct (future (history s)).
  - intros Hfresh s'.
    assert (config s' = config s ∧ activePageId s' = pageId) as [Hc Ha].
    { subst s'. unfold undo, addPage.
      cbn [history config setActivePageId activePageId notification].
      destruct (undo_redo_around_mutation_aux
                  (fun prev => commitPages
                     (reindexPages (setKey pageId newConfig (pages prev))) prev) s)
        as [_ [l Hl]].
      by rewrite Hl, last_snoc. }
    split_and!; [done|done| |].
    + by rewrite Ha, Hc.
    + intros [_ Hin]. by rewrite Ha, Hc in Hin.
Qed.

Lemma undo_leaves_active_page_witness :
  let s := Sample.session "intro" (Sample.funnel Sample.fourPages Sample.fourRouting) in
  let s' := undo (addPage "offer" (Sample.page "Offer" "" []) s) in
  wellFormed s ∧ ¬ wellFormed s'.
Proof.
  intros s s'. split; [split; compute_done|].
  destruct (undo_leaves_active_page "offer" (Sample.page "Offer" "" []) s)
    as (_ & _ & H).
  destruct H as (_ & _ & _ & Hbroken); [compute_done|exact Hbroken].
Defined.
